(** * top-open-subtitles-sentences: the chunked frequency-counting pipeline

    A shallow embedding of [src/top_open_subtitles_sentences.py]: the chunk
    reader, the [Counter] aggregation loop, the noise filter, the two variant
    collapsers, the ranker, and the super-line joiner of the tokenizer.

    Python values are modelled as follows.
    - [str] is a sequence of Unicode code points: [pystr := list N].
    - [collections.Counter] is a [dict], which keeps insertion order; it is an
      association list with unique keys in insertion order.
    - a pandas [DataFrame] with one string column and a [count] column is the
      list of its rows in row order.
    - generators are the list of the values they yield.
    - language codes and file names are ASCII strings. *)

From Stdlib Require Import NArith ZArith Ascii String Floats Uint63 Permutation Sorted.
From Equations Require Import Equations.
From stdpp Require Import base decidable option numbers list sorting strings gmap.

Local Open Scope N_scope.

(** ** Python strings *)

Abbreviation pystr := (list N).

(** An ASCII literal as a Python string. *)
Definition py (s : string) : pystr :=
  map N_of_ascii (list_ascii_of_string s).

Fixpoint drop_while {A} (p : A → bool) (s : list A) : list A :=
  match s with
  | [] => []
  | c :: s' => if p c then drop_while p s' else s
  end.

Definition lstrip_by (p : N → bool) (s : pystr) : pystr := drop_while p s.
Definition rstrip_by (p : N → bool) (s : pystr) : pystr :=
  rev (drop_while p (rev s)).

(** [s.strip(chars)]: code points of [chars] removed from both ends. *)
Definition str_strip (chars : pystr) (s : pystr) : pystr :=
  let p c := bool_decide (c ∈ chars) in
  rstrip_by p (lstrip_by p s).

(** [str.isspace] for one code point (Unicode White_Space together with the
    four information separators). *)
Definition py_isspace (c : N) : bool :=
  ((9 <=? c) && (c <=? 13)) || ((28 <=? c) && (c <=? 32))
  || (c =? 133) || (c =? 160) || (c =? 5760)
  || ((8192 <=? c) && (c <=? 8202))
  || (c =? 8232) || (c =? 8233) || (c =? 8239) || (c =? 8287) || (c =? 12288).

(** [s.strip()] *)
Definition str_strip_ws (s : pystr) : pystr :=
  rstrip_by py_isspace (lstrip_by py_isspace s).

(** [sep.join(parts)] *)
Fixpoint str_join (sep : pystr) (parts : list pystr) : pystr :=
  match parts with
  | [] => []
  | [p] => p
  | p :: ps => p ++ sep ++ str_join sep ps
  end.

Definition space : pystr := [32].

(** [linestrip_pattern]: space, slash, hyphen, en dash, newline, tab and the
    double quote. *)
Definition linestrip_pattern : pystr := [32; 47; 45; 8211; 10; 9; 34].

(** ** The chunk reader *)

(** Case analysis on a value that keeps the equation, for the termination
    argument of [batched]. *)
Definition inspect {A} (x : A) : {y : A | x = y} := exist _ x eq_refl.

(** [batched(iterable, batch_size)]: [islice] takes up to [batch_size] items
    off the iterator; an empty batch ends the generator. *)
Equations? batched {A} (it : list A) (batch_size : nat) : list (list A)
  by wf (length it) lt :=
  batched it n with inspect (take n it) := {
    | exist _ nil _ := nil;
    | exist _ (cons x batch) _ := cons x batch :: batched (drop n it) n }.
Proof.
  destruct n as [|n]; [discriminate|].
  destruct it as [|y it]; [discriminate|].
  rewrite length_drop; simpl; lia.
Qed.

(** [chunked_reader(file_path, lines_per_chunk)], on the lines of the file. *)
Definition chunked_reader (file_lines : list pystr) (lines_per_chunk : N)
  : list (list pystr) :=
  batched file_lines (N.to_nat lines_per_chunk).

(** ** collections.Counter *)

Abbreviation counter := (list (list N * N)).

(** [d[k] = d.get(k, 0) + 1]: an existing key keeps its place, a new key goes
    last. *)
Fixpoint counter_incr (k : pystr) (d : counter) : counter :=
  match d with
  | [] => [(k, 1)]
  | (k', v) :: d' =>
      if decide (k' = k) then (k', v + 1) :: d' else (k', v) :: counter_incr k d'
  end.

(** [d.update(keys)] *)
Definition counter_update (d : counter) (keys : list pystr) : counter :=
  foldl (λ d k, counter_incr k d) d keys.

(** [d.get(k)] *)
Fixpoint counter_get (k : pystr) (d : counter) : option N :=
  match d with
  | [] => None
  | (k', v) :: d' => if decide (k' = k) then Some v else counter_get k d'
  end.

(** [d.pop(k, None)] *)
Definition counter_pop (k : pystr) (d : counter) : counter :=
  filter (λ kv, kv.1 ≠ k) d.

(** [sum(d.values())] *)
Definition sum_values (d : counter) : N :=
  foldr (λ kv acc, kv.2 + acc) 0 d.

(** ** Sentence counting (the loop of [parsedfile_to_top_sentences]) *)

Inductive source_data_type := raw | text | tokenized.

Global Instance source_data_type_eq_dec : EqDecision source_data_type.
Proof. solve_decision. Defined.

(** The key one corpus line is counted under. *)
Definition sentence_key (sdt : source_data_type) (line : pystr) : pystr :=
  if decide (sdt = raw) then line else str_strip linestrip_pattern line.

(** The body of the [for lines in chunked_reader(...)] loop. *)
Definition count_chunk (sdt : source_data_type) (d : counter)
    (lines : list pystr) : counter :=
  let lines := if decide (sdt = raw) then lines
               else map (str_strip linestrip_pattern) lines in
  counter_update d lines.

(** The loop over all chunks, then the two [d.pop] calls that remove the [None]
    key and the empty string. Every key is a string, so popping [None] removes
    nothing. *)
Definition count_sentences (sdt : source_data_type) (lines_per_chunk : N)
    (file_lines : list pystr) : counter :=
  let d := foldl (count_chunk sdt) [] (chunked_reader file_lines lines_per_chunk) in
  counter_pop [] d.

(** ** Joining lines into super-lines *)

(** The state of the loop of [join_to_min_length]: the words collected so far,
    their joined length, and the super-lines yielded so far. *)
Record join_state := JoinState {
  current_words : list pystr;
  current_length : Z;
  yielded : list pystr;
}.

Definition str_len (s : pystr) : Z := Z.of_nat (length s).

Definition join_step (n : Z) (st : join_state) (word : pystr) : join_state :=
  match current_words st with
  | [] => JoinState [word] (str_len word) (yielded st)
  | _ =>
      let new_length := (current_length st + 1 + str_len word)%Z in
      if (n <=? new_length)%Z then
        JoinState [] 0
          (yielded st ++ [str_join space (current_words st ++ [word])])
      else
        JoinState (current_words st ++ [word]) new_length (yielded st)
  end.

Definition join_to_min_length (strings : list pystr) (n : Z) : list pystr :=
  let st := foldl (join_step n) (JoinState [] 0 []) strings in
  match current_words st with
  | [] => yielded st
  | _ => yielded st ++ [str_join space (current_words st)]
  end.

(** ** Regular expressions

    The fragment of Python's [re] syntax that the noise-filter patterns use,
    with [re.search] semantics on [str] subjects and no flags: [^] matches at
    the start of the subject only, [$] at its end or just before a newline
    that ends it. *)

Inductive regex :=
  | Bol                          (* ^ *)
  | Eol                          (* $ *)
  | CharSet (p : N → bool)       (* [...] or a literal *)
  | CharSetPlus (p : N → bool)   (* [...]+ *)
  | Seq (r1 r2 : regex)
  | Alt (r1 r2 : regex).         (* r1|r2 *)

Definition at_eol (rest : pystr) : bool :=
  match rest with
  | [] => true
  | [c] => c =? 10
  | _ => false
  end.

(** The subject positions reachable after one or more characters of the set. *)
Fixpoint plus_ends (p : N → bool) (rest : pystr) : list (bool * pystr) :=
  match rest with
  | c :: rest' => if p c then (false, rest') :: plus_ends p rest' else []
  | [] => []
  end.

(** All ways [r] matches a prefix of [rest]; a position is the remaining
    subject together with whether it is the start of the subject. *)
Fixpoint match_here (r : regex) (at_start : bool) (rest : pystr)
  : list (bool * pystr) :=
  match r with
  | Bol => if at_start then [(at_start, rest)] else []
  | Eol => if at_eol rest then [(at_start, rest)] else []
  | CharSet p =>
      match rest with
      | c :: rest' => if p c then [(false, rest')] else []
      | [] => []
      end
  | CharSetPlus p => plus_ends p rest
  | Seq r1 r2 =>
      flat_map (λ pos, match_here r2 pos.1 pos.2) (match_here r1 at_start rest)
  | Alt r1 r2 => match_here r1 at_start rest ++ match_here r2 at_start rest
  end.

Fixpoint search_from (r : regex) (at_start : bool) (s : pystr) : bool :=
  match match_here r at_start s with
  | _ :: _ => true
  | [] =>
      match s with
      | [] => false
      | _ :: s' => search_from r false s'
      end
  end.

(** [bool(re.search(pattern, s))] *)
Definition re_search (r : regex) (s : pystr) : bool := search_from r true s.

(** [sep.join] of patterns with the bar as separator. *)
Definition alt_join (r : regex) (rs : list regex) : regex := foldl Alt r rs.

Definition in_range (lo hi c : N) : bool := (lo <=? c) && (c <=? hi).

(** ** What the program takes from its libraries *)

Abbreviation row := (list N * N)%type.
Abbreviation dataframe := (list (list N * N)).

Class Externals := {
  (** [str.isalnum] on one code point, from the Unicode database; the class
      [\w] of [re] is this together with the underscore. *)
  isalnum : N → bool;
  (** pandas' [df.sort_values(by=[count], ascending=False)] with its default
      sorting algorithm. *)
  sort_values : dataframe → dataframe;
  (** pandas' [Series.str.lower] on one string. *)
  str_lower : pystr → pystr;
  (** [tokenize_lines_mp(lines, langcode, executor)]: the tokens of one chunk
      of lines, flattened, as the tokenizer selected for the language and the
      worker pool produce them. *)
  tokenize_lines_mp : list pystr → string → list pystr;
}.

(** What is known of [sort_values]: it reorders the rows, and the counts of the
    result are in descending order. *)
Definition count_ge (r1 r2 : row) : Prop := r2.2 ≤ r1.2.

Global Instance count_ge_dec (r1 r2 : row) : Decision (count_ge r1 r2).
Proof. unfold count_ge. apply _. Defined.

Class SortValuesSpec `{Externals} := {
  sort_values_perm df : sort_values df ≡ₚ df;
  sort_values_sorted df : Sorted count_ge (sort_values df);
}.

(** A sort is stable when rows of equal count keep their relative order. *)
Definition stable_sort (sort : dataframe → dataframe) : Prop :=
  ∀ df c, filter (λ r : row, r.2 = c) (sort df) = filter (λ r : row, r.2 = c) df.

(** ** Sorting as Python does it *)

Fixpoint insert_by {A} (leb : A → A → bool) (x : A) (l : list A) : list A :=
  match l with
  | [] => [x]
  | y :: l' => if leb x y then x :: l else y :: insert_by leb x l'
  end.

(** A stable insertion sort: an element goes before the first one it is
    [leb] to. *)
Definition sort_by {A} (leb : A → A → bool) (l : list A) : list A :=
  foldr (insert_by leb) [] l.

(** [d.most_common()]: [sorted(d.items(), key=itemgetter(1), reverse=True)],
    stable on equal counts. *)
Definition most_common (d : counter) : dataframe :=
  sort_by (λ r1 r2 : row, r2.2 <=? r1.2) d.

(** Strings ordered by code points, as pandas orders group keys. *)
Fixpoint str_leb (a b : pystr) : bool :=
  match a, b with
  | [], _ => true
  | _ :: _, [] => false
  | x :: a', y :: b' =>
      if x <? y then true else if y <? x then false else str_leb a' b'
  end.

(** ** Noise filter *)

Definition non_latin_langs : list string :=
  ["ar"; "bg"; "bn"; "el"; "fa"; "he"; "hi"; "hy"; "ja"; "ka";
   "kk"; "ko"; "mk"; "ml"; "ru"; "si"; "ta"; "te"; "th"; "uk";
   "ur"; "ze_zh"; "zh_cn"; "zh_tw"]%string.

Section NoiseFilter.
Context `{Externals}.

(** [\w] and [\W] *)
Definition is_word (c : N) : bool := isalnum c || (c =? 95).

(** The set of the first pattern: space, underscore, [\W] and 0-9. *)
Definition punct_num_set (c : N) : bool :=
  (c =? 32) || (c =? 95) || negb (is_word c) || in_range 48 57 c.

(** The pattern of a whole string of [punct_num_set] characters. *)
Definition punctuation_and_numbers_regex : regex :=
  Seq Bol (Seq (CharSetPlus punct_num_set) Eol).

(** An opening parenthesis, bracket or brace at the start. *)
Definition parenthesis_start_regex : regex :=
  Seq Bol (CharSet (λ c, (c =? 40) || (c =? 91) || (c =? 123))).

(** A colon at the end. *)
Definition colon_end_regex : regex :=
  Seq (CharSet (λ c, c =? 58)) Eol.

(** The set a-z, A-Z, a-grave to u-diaeresis, A-grave to U-diaeresis. *)
Definition latin_set (c : N) : bool :=
  in_range 97 122 c || in_range 65 90 c
  || in_range 224 252 c || in_range 192 220 c.

Definition latin_regex : regex := CharSet latin_set.

(** The combined pattern of [parsedfile_to_top_sentences]. *)
Definition sentence_noise_pattern (langcode : string) : regex :=
  let pattern :=
    alt_join punctuation_and_numbers_regex
      [parenthesis_start_regex; colon_end_regex] in
  if decide (langcode ∈ non_latin_langs)
  then alt_join pattern [latin_regex]
  else pattern.

(** The combined pattern of [parsedfile_to_top_words]. *)
Definition word_noise_pattern (langcode : string) : regex :=
  let pattern := punctuation_and_numbers_regex in
  if decide (langcode ∈ non_latin_langs)
  then alt_join pattern [latin_regex]
  else pattern.

(** [Counter({k: v for (k, v) in d.items() if not re.search(pattern, k)})] *)
Definition noise_filter (pattern : regex) (d : counter) : counter :=
  filter (λ kv, re_search pattern kv.1 = false) d.
End NoiseFilter.

(** ** Threshold and key stripping *)

(** The [min_count] step: skipped when [min_count] is [None] or 0. *)
Definition apply_min_count (min_count : option N) (d : counter) : counter :=
  match min_count with
  | None => d
  | Some m => if decide (m = 0) then d else filter (λ kv, m ≤ kv.2) d
  end.

(** [result[k] = v] on a dict: an existing key keeps its place and gets the
    new value, a new key goes last. *)
Fixpoint dict_set (k : pystr) (v : N) (d : counter) : counter :=
  match d with
  | [] => [(k, v)]
  | (k', v') :: d' =>
      if decide (k' = k) then (k', v) :: d' else (k', v') :: dict_set k v d'
  end.

(** [Counter({k.strip(): v for (k, v) in d.items()})] *)
Definition strip_keys (d : counter) : counter :=
  foldl (λ acc kv, dict_set (str_strip_ws kv.1) kv.2 acc) [] d.

(** ** Variant collapsers *)

(** The group keys of [groupby], which sorts them: each key once, in code
    point order. *)
Definition group_keys (keys : list pystr) : list pystr :=
  sort_by str_leb (remove_dups keys).

(** [df.assign(key=...).groupby(key)]: for each group key, the rows with that
    key, in the row order of [df]. *)
Definition groupby (key : pystr → pystr) (df : dataframe)
  : list (pystr * dataframe) :=
  map (λ g, (g, filter (λ r : row, key r.1 = g) df)) (group_keys (map (key ∘ fst) df)).

(** The aggregations ['first'] and ['sum'] on one group. A group of [groupby]
    has a row; the group key stands in where the list has none. *)
Definition agg_first (g : pystr) (members : dataframe) : pystr :=
  match members with
  | r :: _ => r.1
  | [] => g
  end.

Definition agg_first_sum (group : pystr * dataframe) : row :=
  (agg_first group.1 group.2, sum_values group.2).

(** The characters stripped to form the key [Sm1]: space, full stop, question
    mark, exclamation mark and the two inverted marks. *)
Definition sentence_endings : pystr := [32; 46; 63; 33; 191; 161].

(** A count as a 64-bit float, for counts below 2^63. *)
Definition float_of_N (n : N) : float :=
  PrimFloat.of_uint63 (Uint63.of_Z (Z.of_N n)).

(** [series.idxmax()] on a column of floats: the first row whose value no other
    row exceeds. *)
Fixpoint idxmax_from (f : row → float) (best : row) (rest : dataframe) : row :=
  match rest with
  | [] => best
  | r :: rest' =>
      if PrimFloat.ltb (f best) (f r) then idxmax_from f r rest'
      else idxmax_from f best rest'
  end.

(** [wordcase_by_cutoff(df, word, count, wordlow, cutoff)] on one group, whose
    column [wordlow] holds the group key in every row. Counts are positive, so
    every share is a number. *)
Definition wordcase_by_cutoff (cutoff : float) (group : pystr * dataframe) : row :=
  let '(wordlow, df) := group in
  let group_count := sum_values df in
  let share (r : row) := PrimFloat.div (float_of_N r.2) (float_of_N group_count) in
  let is_low (r : row) := bool_decide (r.1 = wordlow) in
  let mask (r : row) := is_low r && PrimFloat.ltb cutoff (share r) in
  match List.find mask df with
  | Some _ => (wordlow, group_count)
  | None =>
      match df with
      | r :: rest => ((idxmax_from share r rest).1, group_count)
      | [] => (wordlow, group_count)
      end
  end.

Section Collapse.
Context `{Externals}.

Definition collapse_if_only_ending_differently (df : dataframe) : dataframe :=
  sort_values
    (map agg_first_sum
       (groupby (str_strip sentence_endings) (sort_values df))).

Definition collapse_case (df : dataframe) (cutoff : float) : dataframe :=
  if PrimFloat.eqb cutoff 0.5 then
    sort_values (map agg_first_sum (groupby str_lower (sort_values df)))
  else
    sort_values (map (wordcase_by_cutoff cutoff) (groupby str_lower df)).

End Collapse.

(** ** Settings *)

Record settings := {
  min_count : option N;
  lines_per_chunk : N;
  lowcase_cutoff : float;
  n_top_sentences : N;
  n_top_words : N;
}.

(** The values under [# performance], [# finetuning] and [# output settings];
    the cutoff is the float that the literal 0.08 denotes. *)
Definition default_settings : settings := {|
  min_count := Some 5;
  lines_per_chunk := 10000000;
  lowcase_cutoff := 0x1.47ae147ae147bp-4%float;
  n_top_sentences := 10000;
  n_top_words := 30000;
|}.

(** ** Files *)

Record world := {
  (** text files, as the lines that iterating them yields *)
  text_files : gmap string (list pystr);
  (** tables written with [to_csv] *)
  csv_files : gmap string dataframe;
  (** the two total-count tables, one column per language; [None] when the
      file does not exist *)
  total_counts_sentences_file : option (gmap string N);
  total_counts_words_file : option (gmap string N);
  (** the exclusion table, one column per language; [None] when the file does
      not exist *)
  extra_sentences_file : option (gmap string (list pystr));
  directories : gset string;
}.

Inductive error :=
  | FileNotFoundError (path : string).

(** Computations that read and write files and may raise. *)
Definition io (A : Type) : Type := world → world * (error + A).

Global Instance io_ret : MRet io := λ A a w, (w, inr a).

Global Instance io_bind : MBind io := λ A B k m w,
  match m w with
  | (w', inr a) => k a w'
  | (w', inl e) => (w', inl e)
  end.

Definition modify (f : world → world) : io unit := λ w, (f w, inr tt).

(** [if not os.path.exists(d): os.makedirs(d)] *)
Definition makedirs (d : string) : io unit :=
  modify (λ w, {| text_files := text_files w; csv_files := csv_files w;
                  total_counts_sentences_file := total_counts_sentences_file w;
                  total_counts_words_file := total_counts_words_file w;
                  extra_sentences_file := extra_sentences_file w;
                  directories := {[d]} ∪ directories w |}).

(** Opening a text file for reading. *)
Definition read_lines (path : string) : io (list pystr) :=
  λ w, match text_files w !! path with
       | Some lines => (w, inr lines)
       | None => (w, inl (FileNotFoundError path))
       end.

(** [check_line_count(file_path)]: the number of lines of the file. The
    program counts them on the bytes of the file and only asks whether the
    number is zero, which is so exactly when the file has no line to read. *)
Definition check_line_count (path : string) : io nat :=
  lines ← read_lines path; mret (length lines).

(** [df.to_csv(outfile, index=False)] *)
Definition to_csv (outfile : string) (df : dataframe) : io unit :=
  modify (λ w, {| text_files := text_files w;
                  csv_files := <[outfile := df]> (csv_files w);
                  total_counts_sentences_file := total_counts_sentences_file w;
                  total_counts_words_file := total_counts_words_file w;
                  extra_sentences_file := extra_sentences_file w;
                  directories := directories w |}).

(** The block under [# save total counts]: read the table if the file exists,
    set the entry of the language, write the table. *)
Definition save_total_counts_sentences (langcode : string) (total : N) : io unit :=
  modify (λ w, {| text_files := text_files w; csv_files := csv_files w;
                  total_counts_sentences_file :=
                    Some (<[langcode := total]>
                            (default ∅ (total_counts_sentences_file w)));
                  total_counts_words_file := total_counts_words_file w;
                  extra_sentences_file := extra_sentences_file w;
                  directories := directories w |}).

Definition save_total_counts_words (langcode : string) (total : N) : io unit :=
  modify (λ w, {| text_files := text_files w; csv_files := csv_files w;
                  total_counts_sentences_file := total_counts_sentences_file w;
                  total_counts_words_file :=
                    Some (<[langcode := total]>
                            (default ∅ (total_counts_words_file w)));
                  extra_sentences_file := extra_sentences_file w;
                  directories := directories w |}).

(** [extra_sentences_to_exclude()] *)
Definition extra_sentences_to_exclude : io (gmap string (list pystr)) :=
  λ w, match extra_sentences_file w with
       | Some t => (w, inr t)
       | None =>
           (w, inl (FileNotFoundError
                      "src/extra_settings/extra_sentences_to_exclude.csv"))
       end.

(** ** The two pipelines *)

(** [d[~d['sentence'].isin(excluded)]]; a language without a column raises
    [KeyError], which the program catches, leaving [d] as it is. *)
Definition exclude_sentences (excluded : option (list pystr)) (df : dataframe)
  : dataframe :=
  match excluded with
  | Some l => filter (λ r : row, r.1 ∉ l) df
  | None => df
  end.

(** [df.head(n)] *)
Definition head (n : N) (df : dataframe) : dataframe := take (N.to_nat n) df.

(** The loop of [parsedfile_to_top_words], then the two [d.pop] calls. *)
Definition count_words `{Externals} (langcode : string) (lines_per_chunk : N)
    (file_lines : list pystr) : counter :=
  let d := foldl (λ d lines, counter_update d (tokenize_lines_mp lines langcode))
             [] (chunked_reader file_lines lines_per_chunk) in
  counter_pop [] d.

Section Pipelines.
Context `{Externals} (cfg : settings).

(** The table of [parsedfile_to_top_sentences] after the noise filter, whose
    sum is the total count of the language. *)
Definition filtered_sentences (langcode : string) (sdt : source_data_type)
    (file_lines : list pystr) : counter :=
  noise_filter (sentence_noise_pattern langcode)
    (count_sentences sdt (lines_per_chunk cfg) file_lines).

(** From the filtered table to the ranked one: threshold, key stripping,
    [most_common], collapse, exclusion, [head]. *)
Definition rank_sentences (sdt : source_data_type)
    (excluded : option (list pystr)) (d : counter) : dataframe :=
  let d := apply_min_count (min_count cfg) d in
  let d := if decide (sdt = raw) then strip_keys d else d in
  let df := most_common d in
  let df := collapse_if_only_ending_differently df in
  let df := exclude_sentences excluded df in
  head (n_top_sentences cfg) df.

Definition parsedfile_to_top_sentences (parsedfile outfile langcode : string)
    (sdt : source_data_type) : io unit :=
  makedirs "bld/top_sentences";;
  nlines ← check_line_count parsedfile;
  if decide (nlines = 0%nat) then mret tt else
  file_lines ← read_lines parsedfile;
  let d := filtered_sentences langcode sdt file_lines in
  save_total_counts_sentences langcode (sum_values d);;
  excluded ← extra_sentences_to_exclude;
  to_csv outfile (rank_sentences sdt (excluded !! langcode) d).

Definition filtered_words (langcode : string) (file_lines : list pystr) : counter :=
  noise_filter (word_noise_pattern langcode)
    (count_words langcode (lines_per_chunk cfg) file_lines).

Definition rank_words (d : counter) : dataframe :=
  let d := apply_min_count (min_count cfg) d in
  let df := most_common d in
  let df := collapse_case df (lowcase_cutoff cfg) in
  head (n_top_words cfg) df.

Definition parsedfile_to_top_words (parsedfile outfile langcode : string)
    (sdt : source_data_type) : io unit :=
  makedirs "bld/top_words";;
  nlines ← check_line_count parsedfile;
  if decide (nlines = 0%nat) then mret tt else
  file_lines ← read_lines parsedfile;
  let d := filtered_words langcode file_lines in
  save_total_counts_words langcode (sum_values d);;
  to_csv outfile (rank_words d).

End Pipelines.

(** ** A reference instance of the externals

    ASCII letters and digits for [isalnum], the stable descending sort for
    [sort_values], ASCII lower-casing for [str_lower], and splitting on single
    spaces for the tokenizer (the path of pre-tokenized corpora). *)

Definition ascii_isalnum (c : N) : bool :=
  in_range 48 57 c || in_range 65 90 c || in_range 97 122 c.

Definition ascii_lower (s : pystr) : pystr :=
  map (λ c, if in_range 65 90 c then c + 32 else c) s.

(** [s.split(sep)] for a one-character separator. *)
Fixpoint str_split (sep : N) (s : pystr) : list pystr :=
  match s with
  | [] => [[]]
  | c :: s' =>
      if c =? sep then [] :: str_split sep s'
      else match str_split sep s' with
           | w :: ws => (c :: w) :: ws
           | [] => [[c]]
           end
  end.

Definition split_tokenizer (lines : list pystr) (langcode : string) : list pystr :=
  concat (map (λ l, str_split 32 (str_strip linestrip_pattern l)) lines).

Definition reference_externals : Externals := {|
  isalnum := ascii_isalnum;
  sort_values := most_common;
  str_lower := ascii_lower;
  tokenize_lines_mp := split_tokenizer;
|}.

(** ** Other instances of the externals

    What the libraries also allow: Python's [str.isalnum] holds of the
    decimal digits of every script, among them the Arabic-Indic digits
    U+0660 to U+0669, and pandas' default sort need not keep rows of equal
    count in table order. *)

Definition isalnum_arabic_digits (c : N) : bool :=
  ascii_isalnum c || in_range 1632 1641 c.

Definition arabic_digits_externals : Externals := {|
  isalnum := isalnum_arabic_digits;
  sort_values := most_common;
  str_lower := ascii_lower;
  tokenize_lines_mp := split_tokenizer;
|}.

(** A descending sort that puts rows of equal count in the reverse of their
    table order. *)
Definition reversing_sort (df : dataframe) : dataframe := most_common (rev df).

Definition reversing_externals : Externals := {|
  isalnum := ascii_isalnum;
  sort_values := reversing_sort;
  str_lower := ascii_lower;
  tokenize_lines_mp := split_tokenizer;
|}.


(** ** Vocabulary of the statements *)

(** The number of occurrences of a key in a list of keys. *)
Definition occurrences (k : pystr) (keys : list pystr) : N :=
  N.of_nat (length (filter (λ k', k' = k) keys)).

(** What holds of the loop state of [join_to_min_length] after the strings
    [done]: the super-lines yielded so far are the joins of consecutive
    non-empty groups of [done], each of length at least [n]; the words after
    them are the pending ones, and [current_length] is their joined length. *)
Definition join_inv (n : Z) (done : list pystr) (st : join_state) : Prop :=
  ∃ groups : list (list pystr),
    Forall (λ g, g ≠ []) groups
    ∧ yielded st = map (str_join space) groups
    ∧ concat groups ++ current_words st = done
    ∧ current_length st = str_len (str_join space (current_words st))
    ∧ Forall (λ s, (n ≤ str_len s)%Z) (yielded st).

(** An aggregation reports the sum of the counts of its group. *)
Definition agg_sums (agg : pystr * dataframe → row) : Prop :=
  ∀ group, (agg group).2 = sum_values group.2.

(** An aggregation names its group after one of the members. *)
Definition agg_picks_member (agg : pystr * dataframe → row) : Prop :=
  ∀ g members, members ≠ [] → ∃ r, r ∈ members ∧ (agg (g, members)).1 = r.1.

(** What a collapser owes its input [df], with [key] the grouping key: the
    total of the counts is kept; every output row is named after a row of the
    table and carries the sum of the counts of all rows of that group; every
    row of the table has its group in the output; the output is in descending
    order of count. *)
Definition collapsed_from (df : dataframe) (key : pystr → pystr)
    (out : dataframe) : Prop :=
  sum_values out = sum_values df
  ∧ (∀ w c, (w, c) ∈ out →
       w ∈ df.*1 ∧ c = sum_values (filter (λ r : row, key r.1 = key w) df))
  ∧ (∀ r, r ∈ df → ∃ w c, (w, c) ∈ out ∧ key w = key r.1)
  ∧ Sorted count_ge out.

(** The float that the literal 0.2 denotes. *)
Definition cutoff_0_2 : float := 0x1.999999999999ap-3%float.

(** ** Output files *)

Definition tmpfile (langcode : string) : string :=
  "bld/tmp/" +:+ langcode +:+ "_raw.txt".

Definition parsedfile (langcode : string) (sdt : source_data_type) : string :=
  match sdt with
  | raw => "bld/tmp/" +:+ langcode +:+ "_raw.txt"
  | text => "src/data/" +:+ langcode +:+ "/" +:+ langcode +:+ "_text.txt"
  | tokenized => "src/data/" +:+ langcode +:+ "/" +:+ langcode +:+ "_tokenized.txt"
  end.

Definition sentence_outfile (langcode : string) : string :=
  "bld/top_sentences/" +:+ langcode +:+ "_top_sentences.csv".

Definition word_outfile (langcode : string) : string :=
  "bld/top_words/" +:+ langcode +:+ "_top_words.csv".

(** ** Language codes *)

Definition valid_langcodes : list string :=
  ["af"; "ar"; "bg"; "bn"; "br"; "bs"; "ca"; "cs"; "da"; "de";
   "el"; "en"; "eo"; "es"; "et"; "eu"; "fa"; "fi"; "fr"; "gl";
   "he"; "hi"; "hr"; "hu"; "hy"; "id"; "is"; "it"; "ja"; "ka";
   "kk"; "ko"; "lt"; "lv"; "mk"; "ml"; "ms"; "nl"; "no"; "pl";
   "pt"; "pt_br"; "ro"; "ru"; "si"; "sk"; "sl"; "sq"; "sr";
   "sv"; "ta"; "te"; "th"; "tl"; "tr"; "uk"; "ur"; "vi";
   "ze_en"; "ze_zh"; "zh_cn"; "zh_tw"]%string.

Definition langs_not_in_spacy : list string :=
  ["br"; "bs"; "eo"; "gl"; "ka"; "kk"; "ms"; "no"; "ko"]%string.

Inductive langcode_error :=
  | NotAValidLangcode (langcode : string).

(** [check_langcodes(langcodes)]: raises at the first code that is not valid. *)
Fixpoint check_langcodes (langcodes : list string) : langcode_error + unit :=
  match langcodes with
  | [] => inr tt
  | langcode :: rest =>
      if decide (langcode ∈ valid_langcodes) then check_langcodes rest
      else inl (NotAValidLangcode langcode)
  end.

(** [s.split(sep)] on a language code. *)
Fixpoint string_split (sep : ascii) (s : string) : list string :=
  match s with
  | EmptyString => [EmptyString]
  | String c s' =>
      if decide (c = sep) then EmptyString :: string_split sep s'
      else match string_split sep s' with
           | w :: ws => String c w :: ws
           | [] => [String c EmptyString]
           end
  end.

(** [normalized_langcode(langcode)]. Both lookups are in range: a split has
    a first part, and the two codes of the first branch have a second. *)
Definition normalized_langcode (langcode : string) : string :=
  if decide (langcode = "ze_en"%string ∨ langcode = "ze_zh"%string)
  then default EmptyString (string_split "_" langcode !! 1%nat)
  else default EmptyString (string_split "_" langcode !! 0%nat).

(** ** Extraction of the text of a subtitle file *)

(** [line.startswith(('<', ' '))] *)
Definition starts_markup (line : pystr) : bool :=
  match line with
  | c :: _ => (c =? 60) || (c =? 32)
  | [] => false
  end.

(** The list [text_lines] that [text_from_xmlfile] builds from the lines of
    the file. *)
Definition text_lines (file_lines : list pystr) : list pystr :=
  flat_map (λ line,
    if starts_markup line then []
    else let stripped_line := str_strip linestrip_pattern line in
         match stripped_line with
         | [] => []
         | _ => [stripped_line ++ [10]]
         end) file_lines.

(** [text_from_xmlfile(infile)], on the lines of the file. *)
Definition text_from_xmlfile (file_lines : list pystr) : pystr :=
  concat (text_lines file_lines).

(** ** The regex tokenizer *)

(** The characters [create_word_token] strips: full stop, comma, apostrophe,
    right single quotation mark, double quote, space, tab, newline, carriage
    return, and the signs ! @ # $ % ^ & * ( ) _ - = + { } : < > ? / ; *)
Definition token_strip_chars : pystr :=
  [46; 44; 39; 8217; 34; 39; 32; 9; 10; 13; 33; 64; 35; 36; 37; 94; 38; 42;
   40; 41; 95; 45; 61; 43; 123; 125; 58; 34; 60; 62; 63; 47; 59].

(** [s.replace(old, new)] for single characters. *)
Definition replace_char (old new : N) (s : pystr) : pystr :=
  map (λ c, if c =? old then new else c) s.

(** The test before [token[:-2]]: longer than two, ending in apostrophe s. *)
Definition ends_possessive (token : pystr) : bool :=
  match rev token with
  | s :: a :: _ :: _ => (s =? 115) && (a =? 39)
  | _ => false
  end.

(** [create_word_token(text, lang_id)]; [None] is the [AssertionError] on a
    tab, newline or carriage return in [text]. *)
Definition create_word_token (text : pystr) (lang_id : string) : option pystr :=
  if existsb (λ c, (c =? 9) || (c =? 10) || (c =? 13)) text then None
  else
    let token := str_strip token_strip_chars text in
    match token with
    | [] => Some token
    | _ =>
        let token :=
          if decide (lang_id ∈ ["en"; "fr"; "it"; "de"; "es"; "el"]%string)
          then replace_char 96 39 (replace_char 8217 39 token)
          else token in
        let token :=
          if decide (lang_id ∈ ["en"; "nl"; "af"]%string)
          then if ends_possessive token
               then take (length token - 2) token
               else token
          else token in
        Some token
    end.

(** [s.replace(". ", " ")] *)
Fixpoint replace_dot_space (s : pystr) : pystr :=
  match s with
  | 46 :: 32 :: s' => 32 :: replace_dot_space s'
  | c :: s' => c :: replace_dot_space s'
  | [] => []
  end.

(** The loop of [re.split] on a pattern that is one or more characters of a
    set: [cur] is the piece being read, [in_run] tells that the last character
    read was a separator. *)
Fixpoint split_runs_from (sep : N → bool) (cur : pystr) (in_run : bool)
    (s : pystr) : list pystr :=
  match s with
  | [] => [rev cur]
  | c :: s' =>
      if sep c then
        if in_run then split_runs_from sep [] true s'
        else rev cur :: split_runs_from sep [] true s'
      else split_runs_from sep (c :: cur) false s'
  end.

(** [re.split(pattern, s)] for such a pattern. *)
Definition re_split_runs (sep : N → bool) (s : pystr) : list pystr :=
  split_runs_from sep [] false s.

Section RegexTokenizer.
Context `{Externals}.

(** The complement of the set of [non_word_chars]: [\w], hyphen, underscore,
    apostrophe, right single quotation mark, full stop and the two ranges of
    Arabic marks. *)
Definition token_char (c : N) : bool :=
  is_word c || (c =? 45) || (c =? 95) || (c =? 39) || (c =? 8217) || (c =? 46)
  || in_range 1552 1562 c || in_range 1611 1631 c.

(** [regex_tokenizer(text, lang_id)] *)
Definition regex_tokenizer (text : pystr) (lang_id : string)
  : option (list pystr) :=
  let text := replace_dot_space (text ++ [32]) in
  tokens ← mapM (λ w, create_word_token w lang_id)
             (re_split_runs (λ c, negb (token_char c)) text);
  Some (filter (λ token : pystr, token ≠ []) tokens).

End RegexTokenizer.

(** ** Choice of the tokenizer *)

(** The settings and the engine that [tokenize_lines] reads: the flag
    [use_regex_tokenizer], the global [source_data_type], [n_process], and
    spaCy's [nlp.pipe] for a language, which gives for each text its tokens
    with their [is_punct] flag. *)
Record tokenizer_env := {
  use_regex_tokenizer : bool;
  corpus_data_type : source_data_type;
  n_process : N;
  nlp_pipe : string → list pystr → list (list (pystr * bool));
}.

Module Tokenizer.
Section Tokenizer.
Context `{Externals} (env : tokenizer_env) (cfg : settings).

(** [tokenize_lines(lines, langcode, get_spacy_pipeline)]; [None] is the
    [AssertionError] of [create_word_token]. *)
Definition tokenize_lines (lines : list pystr) (langcode : string)
  : option (list (list pystr)) :=
  let using_regex_tokenizer :=
    if decide (normalized_langcode langcode ∈ ["zh"; "ja"; "th"; "lo"; "km"]%string)
    then false else use_regex_tokenizer env in
  let lines :=
    if decide (corpus_data_type env = text)
    then map (str_strip linestrip_pattern) lines else lines in
  if decide (corpus_data_type env = tokenized) then
    Some (map (λ l, str_split 32 (str_strip linestrip_pattern l)) lines)
  else if using_regex_tokenizer
          || bool_decide (normalized_langcode langcode ∈ langs_not_in_spacy) then
    mapM (λ l, regex_tokenizer l langcode) lines
  else
    let big_lines := join_to_min_length lines 5000 in
    Some (map (λ doc, map (λ w, str_strip [45] w.1)
                        (List.filter (λ w, negb w.2) doc))
            (nlp_pipe env langcode big_lines)).

(** The branches of [tokenize_lines] that work line by line: a pre-tokenized
    corpus, or the regex tokenizer. *)
Definition line_tokenizer (langcode : string) : Prop :=
  corpus_data_type env = tokenized
  ∨ (if decide (normalized_langcode langcode ∈ ["zh"; "ja"; "th"; "lo"; "km"]%string)
     then false else use_regex_tokenizer env)
    || bool_decide (normalized_langcode langcode ∈ langs_not_in_spacy) = true.

(** All tokens of a list of lines, in one list. *)
Definition flat_tokens (langcode : string) (lines : list pystr)
  : option (list pystr) :=
  dt ← tokenize_lines lines langcode; Some (concat dt).

(** [int(lines_per_chunk/(n_process*25))], for settings below 2^53, where the
    float quotient truncates to the integer quotient. *)
Definition sub_batch_size : nat :=
  N.to_nat (lines_per_chunk cfg / (n_process env * 25)).

(** [tokenize_lines_mp(lines, langcode, executor)]: the sub-batches go through
    [tokenize_lines] and the results are chained twice. [None] is an
    exception: the [ZeroDivisionError] of the sub-batch size when [n_process]
    is zero, or the [AssertionError] of a sub-batch. *)
Definition tokenize_lines_mp (lines : list pystr) (langcode : string)
  : option (list pystr) :=
  if decide (n_process env = 0) then None
  else
    dt ← mapM (λ batch, tokenize_lines batch langcode)
           (batched lines sub_batch_size);
    Some (concat (concat dt)).

End Tokenizer.
End Tokenizer.

(** ** Runs over languages *)

(** The switches of the settings that choose the pipelines of a run. *)
Record run_flags := {
  get_sentences : bool;
  get_words : bool;
  get_words_using_tokenized : bool;
}.

Section Runs.
Context `{Externals} (cfg : settings) (flags : run_flags).

(** The calls of the two pipelines in [run_one_langcode]: what the function
    does in the base directory of the repository when the switches
    [get_source_data], [get_parsed_text], [delete_tmpfile] and
    [delete_source_data] are off. *)
Definition run_pipelines (langcode : string) (sdt : source_data_type)
  : io unit :=
  (if get_sentences flags then
     parsedfile_to_top_sentences cfg (parsedfile langcode sdt)
       (sentence_outfile langcode) langcode sdt
   else mret tt);;
  if get_words flags then
    if negb (get_words_using_tokenized flags) then
      parsedfile_to_top_words cfg (parsedfile langcode sdt)
        (word_outfile langcode) langcode sdt
    else
      parsedfile_to_top_words cfg (parsedfile langcode tokenized)
        (word_outfile langcode) langcode tokenized
  else mret tt.

(** The loop of [main] over [run_langcodes], with these calls. *)
Fixpoint run_languages (run_langcodes : list string) (sdt : source_data_type)
  : io unit :=
  match run_langcodes with
  | [] => mret tt
  | langcode :: rest =>
      run_pipelines langcode sdt;; run_languages rest sdt
  end.

End Runs.

(** What the files hold for a language: its table of sentences, its table of
    words, and its entries in the two tables of totals. *)
Definition language_outputs (langcode : string) (w : world)
  : option dataframe * option dataframe * option N * option N :=
  (csv_files w !! sentence_outfile langcode,
   csv_files w !! word_outfile langcode,
   default ∅ (total_counts_sentences_file w) !! langcode,
   default ∅ (total_counts_words_file w) !! langcode).

(** The files the pipelines read are the same in two states. *)
Definition same_inputs (w w' : world) : Prop :=
  text_files w' = text_files w
  ∧ extra_sentences_file w' = extra_sentences_file w.

(** A map after an entry was written, or was not. *)
Definition written {V} (k : string) (o : option V) (m : gmap string V)
  : gmap string V :=
  match o with
  | Some v => <[k := v]> m
  | None => m
  end.

(** * Properties *)

Ltac run_io :=
  unfold parsedfile_to_top_sentences, parsedfile_to_top_words,
    check_line_count, makedirs, to_csv, save_total_counts_sentences,
    save_total_counts_words, extra_sentences_to_exclude, read_lines, modify,
    mbind, mret, io_bind, io_ret;
  cbn [text_files csv_files total_counts_sentences_file total_counts_words_file
       extra_sentences_file directories fst snd].

(** ** Examples *)

Example batched_7_3 : batched [1; 2; 3; 4; 5; 6; 7] 3 = [[1; 2; 3]; [4; 5; 6]; [7]].
Proof. reflexivity. Qed.

Example batched_zero : batched [1; 2; 3] 0 = [].
Proof. reflexivity. Qed.

Example join_ex :
  join_to_min_length [py "ab"; py "cd"; py "e"; py "fgh"; py "i"] 5
  = [py "ab cd"; py "e fgh"; py "i"].
Proof. vm_compute. reflexivity. Qed.

(** ** The chunk reader *)

Lemma batched_eq {A} (it : list A) (n : nat) :
  batched it n =
  match take n it with
  | [] => []
  | batch => batch :: batched (drop n it) n
  end.
Proof.
  funelim (batched it n).
  - now rewrite e.
  - now rewrite e.
Qed.

Lemma batched_nil {A} (n : nat) : batched (@nil A) n = [].
Proof. rewrite batched_eq. now rewrite take_nil. Qed.

Lemma batched_cons {A} (x : A) (it : list A) (n : nat) :
  batched (x :: it) (S n) =
  take (S n) (x :: it) :: batched (drop (S n) (x :: it)) (S n).
Proof. now rewrite batched_eq at 1. Qed.

(** Induction on the source that follows the batches. *)
Lemma batched_ind (A : Type) (n : nat) (P : list A → Prop) :
  P [] →
  (∀ x it, P (drop (S n) (x :: it)) → P (x :: it)) →
  ∀ it, P it.
Proof.
  intros Hnil Hcons it.
  remember (length it) as k eqn:Hk. revert it Hk.
  induction k as [k IH] using lt_wf_ind.
  intros [|x it] Hk; [exact Hnil|].
  apply Hcons. eapply IH; [|reflexivity].
  subst k. simpl. rewrite length_drop. lia.
Qed.

Lemma concat_batched {A} (it : list A) (n : nat) :
  (0 < n)%nat → concat (batched it n) = it.
Proof.
  intros Hn. destruct n as [|n]; [lia|].
  induction it as [|x it IH] using (batched_ind A n).
  - now rewrite batched_nil.
  - rewrite batched_cons. cbn [concat]. rewrite IH. apply take_drop.
Qed.

Lemma batched_nonempty {A} (it : list A) (n : nat) :
  Forall (λ b, b ≠ []) (batched it n).
Proof.
  destruct n as [|n].
  - rewrite batched_eq. now rewrite take_0.
  - induction it as [|x it IH] using (batched_ind A n).
    + rewrite batched_nil. constructor.
    + rewrite batched_cons. constructor; [discriminate|exact IH].
Qed.

Lemma batched_at_most {A} (it : list A) (n : nat) :
  Forall (λ b, (length b ≤ n)%nat) (batched it n).
Proof.
  destruct n as [|n].
  - rewrite batched_eq. now rewrite take_0.
  - induction it as [|x it IH] using (batched_ind A n).
    + rewrite batched_nil. constructor.
    + rewrite batched_cons. constructor; [|exact IH].
      rewrite length_take. lia.
Qed.

Lemma batched_full {A} (it : list A) (n : nat) i b :
  batched it n !! i = Some b →
  (S i < length (batched it n))%nat →
  length b = n.
Proof.
  destruct n as [|n].
  { rewrite batched_eq, take_0. intros Hb. discriminate Hb. }
  revert i b. induction it as [|x it IH] using (batched_ind A n); intros i b.
  - rewrite batched_nil. intros Hb. discriminate Hb.
  - rewrite batched_cons. destruct i as [|i]; cbn [lookup list_lookup length].
    + intros [= <-] Hlen.
      destruct (drop (S n) (x :: it)) as [|y rest] eqn:Hdrop.
      * rewrite batched_nil in Hlen. simpl in Hlen. lia.
      * assert (Hl : length (drop (S n) (x :: it)) = length (y :: rest))
          by now rewrite Hdrop.
        rewrite length_drop in Hl. cbn [length] in Hl |- *.
        rewrite length_take. lia.
    + intros Hb Hlen. apply (IH i b Hb). lia.
Qed.

(** C9. For every line sequence and every positive batch size, the batches
    concatenated in order are the input; no batch is empty; every batch but
    the last has exactly the batch size (and none has more); an empty source
    gives no batch. [chunked_reader] yields the batches of [batched]. *)
Theorem chunk_reader_batches (lines : list pystr) (lines_per_chunk : N) :
  0 < lines_per_chunk →
  let batches := chunked_reader lines lines_per_chunk in
  concat batches = lines
  ∧ Forall (λ b, b ≠ []) batches
  ∧ (∀ i b, batches !! i = Some b → (S i < length batches)%nat →
       length b = N.to_nat lines_per_chunk)
  ∧ Forall (λ b, (length b ≤ N.to_nat lines_per_chunk)%nat) batches
  ∧ chunked_reader [] lines_per_chunk = [].
Proof.
  intros Hn batches. subst batches. unfold chunked_reader.
  repeat split.
  - apply concat_batched. lia.
  - apply batched_nonempty.
  - apply batched_full.
  - apply batched_at_most.
  - apply batched_nil.
Qed.

Lemma chunk_reader_batches_witness :
  let lines := [py "a"; py "b"; py "c"] in
  concat (chunked_reader lines 2) = lines
  ∧ chunked_reader lines 2 = [[py "a"; py "b"]; [py "c"]].
Proof.
  split.
  - apply (chunk_reader_batches [py "a"; py "b"; py "c"] 2). reflexivity.
  - reflexivity.
Defined.

(** ** The aggregation loop *)

Lemma sum_values_app (d1 d2 : counter) :
  sum_values (d1 ++ d2) = sum_values d1 + sum_values d2.
Proof.
  induction d1 as [|[k v] d1 IH]; cbn [sum_values foldr app] in *; [reflexivity|].
  fold (sum_values (d1 ++ d2)). fold (sum_values d1). rewrite IH. cbn. lia.
Qed.

Lemma sum_values_cons (r : row) (d : counter) :
  sum_values (r :: d) = r.2 + sum_values d.
Proof. reflexivity. Qed.

Lemma sum_values_perm (d1 d2 : counter) :
  d1 ≡ₚ d2 → sum_values d1 = sum_values d2.
Proof.
  induction 1 as [|r d1 d2 _ IH|r1 r2 d|d1 d2 d3 _ IH1 _ IH2];
    rewrite ?sum_values_cons; try lia.
Qed.

Lemma sum_values_incr (k : pystr) (d : counter) :
  sum_values (counter_incr k d) = sum_values d + 1.
Proof.
  induction d as [|[k' v] d IH]; [reflexivity|].
  cbn [counter_incr]. destruct (decide (k' = k)).
  - rewrite !sum_values_cons. cbn. lia.
  - rewrite !sum_values_cons, IH. lia.
Qed.

Lemma sum_values_update (d : counter) (keys : list pystr) :
  sum_values (counter_update d keys) = sum_values d + N.of_nat (length keys).
Proof.
  unfold counter_update. revert d.
  induction keys as [|k keys IH]; intros d; cbn [foldl length].
  - lia.
  - rewrite IH, sum_values_incr. lia.
Qed.

Lemma counter_update_app (d : counter) (ks1 ks2 : list pystr) :
  counter_update d (ks1 ++ ks2) = counter_update (counter_update d ks1) ks2.
Proof. unfold counter_update. apply foldl_app. Qed.

(** The loop over the chunks counts the keys of all their lines, in order. *)
Lemma count_chunks_concat (sdt : source_data_type) (d : counter)
    (chunks : list (list pystr)) :
  foldl (count_chunk sdt) d chunks
  = counter_update d (map (sentence_key sdt) (concat chunks)).
Proof.
  revert d. induction chunks as [|chunk chunks IH]; intros d; [reflexivity|].
  cbn [foldl concat]. rewrite IH, map_app, counter_update_app.
  f_equal. unfold count_chunk, sentence_key.
  destruct (decide (sdt = raw)); [now rewrite map_id|reflexivity].
Qed.

Lemma counter_pop_incr (k k' : pystr) (d : counter) :
  counter_pop k (counter_incr k' d)
  = if decide (k' = k) then counter_pop k d
    else counter_incr k' (counter_pop k d).
Proof.
  unfold counter_pop.
  induction d as [|[k0 v] d IH]; cbn [counter_incr].
  - destruct (decide (k' = k)) as [->|Hne].
    + rewrite filter_cons_False; [reflexivity|]. cbn. tauto.
    + rewrite filter_cons_True; [reflexivity|]. cbn. congruence.
  - destruct (decide (k0 = k')) as [->|Hne0].
    + destruct (decide (k' = k)) as [->|Hne].
      * rewrite !filter_cons_False; [reflexivity|cbn; tauto|cbn; tauto].
      * rewrite !filter_cons_True; [|cbn; congruence|cbn; congruence].
        cbn [counter_incr]. now rewrite decide_True.
    + destruct (decide (k0 = k)) as [->|Hne1].
      * rewrite !filter_cons_False; [|cbn; tauto|cbn; tauto].
        rewrite IH. now destruct (decide (k' = k)).
      * rewrite !filter_cons_True; [|cbn; congruence|cbn; congruence].
        rewrite IH. destruct (decide (k' = k)); [reflexivity|].
        cbn [counter_incr]. now rewrite decide_False.
Qed.

Lemma counter_pop_update (k : pystr) (d : counter) (keys : list pystr) :
  counter_pop k (counter_update d keys)
  = counter_update (counter_pop k d) (filter (λ k', k' ≠ k) keys).
Proof.
  unfold counter_update. revert d.
  induction keys as [|k' keys IH]; intros d; [reflexivity|].
  cbn [foldl]. rewrite IH, counter_pop_incr.
  destruct (decide (k' = k)) as [->|Hne].
  - rewrite filter_cons_False; [reflexivity|tauto].
  - rewrite filter_cons_True; [reflexivity|exact Hne].
Qed.

(** The table of the sentence loop, whatever the (positive) chunk size: the
    non-empty keys of the lines counted in corpus order. *)
Lemma count_sentences_eq (sdt : source_data_type) (n : N) (lines : list pystr) :
  0 < n →
  count_sentences sdt n lines
  = counter_update [] (filter (λ k, k ≠ []) (map (sentence_key sdt) lines)).
Proof.
  intros Hn. unfold count_sentences, chunked_reader.
  rewrite count_chunks_concat, concat_batched by lia.
  rewrite counter_pop_update. f_equal.
  apply list_filter_iff. tauto.
Qed.

Lemma counter_get_incr (k k' : pystr) (d : counter) :
  counter_get k (counter_incr k' d)
  = if decide (k' = k) then Some (default 0 (counter_get k d) + 1)
    else counter_get k d.
Proof.
  induction d as [|[k0 v] d IH]; cbn [counter_incr counter_get].
  - destruct (decide (k' = k)); reflexivity.
  - destruct (decide (k0 = k')) as [->|Hne0]; cbn [counter_get].
    + destruct (decide (k' = k)); reflexivity.
    + destruct (decide (k0 = k)) as [->|Hne].
      * now rewrite decide_False by congruence.
      * exact IH.
Qed.

Lemma counter_get_update (k : pystr) (d : counter) (keys : list pystr) :
  default 0 (counter_get k (counter_update d keys))
  = default 0 (counter_get k d) + occurrences k keys.
Proof.
  unfold counter_update, occurrences. revert d.
  induction keys as [|k' keys IH]; intros d; cbn [foldl].
  - cbn. lia.
  - rewrite IH, counter_get_incr. destruct (decide (k' = k)) as [->|Hne].
    + rewrite filter_cons_True by reflexivity.
      cbn [default from_option id length]. lia.
    + rewrite filter_cons_False by exact Hne. reflexivity.
Qed.

(** C1. The table of the sentence loop (chunks fed to [Counter.update], then
    the empty key removed) is the same for any two positive chunk sizes, key
    by key; its counts sum to the number of corpus lines whose key is not
    empty, and the count of a non-empty key is the number of lines with that
    key. *)
Theorem chunk_size_invariance (sdt : source_data_type) (lines : list pystr)
    (n m : N) :
  0 < n → 0 < m →
  count_sentences sdt n lines = count_sentences sdt m lines
  ∧ (∀ k, counter_get k (count_sentences sdt n lines)
          = counter_get k (count_sentences sdt m lines))
  ∧ sum_values (count_sentences sdt n lines)
    = N.of_nat (length (filter (λ l, sentence_key sdt l ≠ []) lines))
  ∧ (∀ k, k ≠ [] →
       default 0 (counter_get k (count_sentences sdt n lines))
       = N.of_nat (length (filter (λ l, sentence_key sdt l = k) lines))).
Proof.
  intros Hn Hm. rewrite !count_sentences_eq by assumption.
  split; [reflexivity|]. split; [reflexivity|]. split.
  - rewrite sum_values_update. cbn [sum_values foldr].
    rewrite N.add_0_l. f_equal.
    induction lines as [|l lines IH]; [reflexivity|].
    cbn [map]. destruct (decide (sentence_key sdt l = [])) as [He|He].
    + rewrite !filter_cons_False by tauto. exact IH.
    + rewrite !filter_cons_True by exact He. cbn [length]. now rewrite IH.
  - intros k Hk. rewrite counter_get_update.
    cbn [counter_get default from_option id].
    rewrite N.add_0_l. unfold occurrences. f_equal.
    induction lines as [|l lines IH]; [reflexivity|].
    cbn [map]. destruct (decide (sentence_key sdt l = k)) as [He|He].
    + rewrite (filter_cons_True (λ l, sentence_key sdt l = k)) by exact He.
      rewrite (filter_cons_True (λ k, k ≠ [])) by congruence.
      rewrite filter_cons_True by exact He. cbn [length]. now rewrite IH.
    + rewrite (filter_cons_False (λ l, sentence_key sdt l = k)) by exact He.
      destruct (decide (sentence_key sdt l = [])) as [He'|He'].
      * rewrite filter_cons_False by tauto. exact IH.
      * rewrite filter_cons_True by exact He'.
        rewrite filter_cons_False by exact He. exact IH.
Qed.

Lemma chunk_size_invariance_witness :
  let lines := [py "a "; py "b"; py "a"; py " "; py "-a"] in
  count_sentences text 1 lines = count_sentences text 10000 lines
  ∧ count_sentences text 1 lines = [(py "a", 3); (py "b", 1)].
Proof.
  split.
  - apply (chunk_size_invariance text
             [py "a "; py "b"; py "a"; py " "; py "-a"] 1 10000);
      reflexivity.
  - vm_compute. reflexivity.
Defined.

(** ** Joining lines into super-lines *)

Lemma str_join_cons (sep p : pystr) (ps : list pystr) :
  ps ≠ [] → str_join sep (p :: ps) = p ++ sep ++ str_join sep ps.
Proof. destruct ps; [congruence|reflexivity]. Qed.

Lemma str_join_app (sep : pystr) (l1 l2 : list pystr) :
  l1 ≠ [] → l2 ≠ [] →
  str_join sep (l1 ++ l2) = str_join sep l1 ++ sep ++ str_join sep l2.
Proof.
  intros H1 H2. induction l1 as [|p l1 IH]; [congruence|].
  destruct l1 as [|q l1].
  - cbn [app]. now rewrite str_join_cons.
  - change ((p :: q :: l1) ++ l2) with (p :: ((q :: l1) ++ l2)).
    rewrite str_join_cons by discriminate.
    rewrite IH by discriminate.
    rewrite (str_join_cons sep p (q :: l1)) by discriminate.
    now rewrite <- !app_assoc.
Qed.

Lemma str_join_groups (sep : pystr) (groups : list (list pystr)) :
  Forall (λ g, g ≠ []) groups →
  str_join sep (map (str_join sep) groups) = str_join sep (concat groups).
Proof.
  induction 1 as [|g groups Hg Hgs IH]; [reflexivity|].
  destruct groups as [|g' groups].
  - cbn. now rewrite app_nil_r.
  - cbn [map concat] in *. rewrite str_join_cons by discriminate.
    rewrite IH. symmetry. apply str_join_app; [exact Hg|].
    inversion Hgs; subst. destruct g'; [congruence|discriminate].
Qed.

Lemma str_len_join_snoc (ws : list pystr) (w : pystr) :
  ws ≠ [] →
  str_len (str_join space (ws ++ [w]))
  = (str_len (str_join space ws) + 1 + str_len w)%Z.
Proof.
  intros Hws. rewrite str_join_app by (exact Hws || discriminate).
  unfold str_len, space. cbn [str_join]. rewrite !length_app. cbn [length]. lia.
Qed.

Lemma join_step_inv (n : Z) (done : list pystr) (st : join_state) (word : pystr) :
  join_inv n done st → join_inv n (done ++ [word]) (join_step n st word).
Proof.
  intros (groups & Hne & Hy & Hc & Hl & Hn).
  unfold join_step. destruct (current_words st) as [|w ws] eqn:Hcur.
  - exists groups. cbn [current_words current_length yielded].
    repeat split; try assumption. now rewrite <- Hc, app_nil_r.
  - destruct (Z.leb_spec n (current_length st + 1 + str_len word)) as [Hge|Hlt].
    + exists (groups ++ [(w :: ws) ++ [word]]).
      cbn [current_words current_length yielded]. repeat split.
      * apply Forall_app. split; [exact Hne|]. constructor; [discriminate|constructor].
      * rewrite Hy, map_app. reflexivity.
      * rewrite concat_app. cbn [concat]. rewrite !app_nil_r, <- Hc.
        now rewrite <- !app_assoc.
      * apply Forall_app. split; [exact Hn|]. constructor; [|constructor].
        rewrite str_len_join_snoc by discriminate. now rewrite <- Hl.
    + exists groups. cbn [current_words current_length yielded]. repeat split.
      * exact Hne.
      * exact Hy.
      * now rewrite <- Hc, <- !app_assoc.
      * rewrite str_len_join_snoc by discriminate. now rewrite <- Hl.
      * exact Hn.
Qed.

Lemma join_loop_inv (n : Z) (strings done : list pystr) (st : join_state) :
  join_inv n done st →
  join_inv n (done ++ strings) (foldl (join_step n) st strings).
Proof.
  revert done st. induction strings as [|word strings IH]; intros done st Hinv.
  - now rewrite app_nil_r.
  - cbn [foldl]. replace (done ++ word :: strings) with ((done ++ [word]) ++ strings)
      by now rewrite <- app_assoc.
    apply IH, join_step_inv, Hinv.
Qed.

(** C10. The super-lines of [join_to_min_length] are the joins of consecutive
    non-empty groups that make up the input, so joining them with single
    spaces gives the input joined with single spaces; every super-line but
    the last has length at least [n]. *)
Theorem join_to_min_length_spec (strings : list pystr) (n : Z) :
  let out := join_to_min_length strings n in
  (∃ groups : list (list pystr),
      Forall (λ g, g ≠ []) groups
      ∧ concat groups = strings
      ∧ out = map (str_join space) groups)
  ∧ str_join space out = str_join space strings
  ∧ (∀ i s, out !! i = Some s → (S i < length out)%nat → (n ≤ str_len s)%Z).
Proof.
  intros out.
  assert (Hinv : join_inv n strings (foldl (join_step n) (JoinState [] 0 []) strings)).
  { apply (join_loop_inv n strings [] (JoinState [] 0 [])).
    exists []. repeat split; constructor. }
  destruct Hinv as (groups & Hne & Hy & Hc & _ & Hn).
  assert (Hgroups : ∃ groups' : list (list pystr),
             Forall (λ g, g ≠ []) groups' ∧ concat groups' = strings
             ∧ out = map (str_join space) groups').
  { subst out. unfold join_to_min_length.
    destruct (current_words _) as [|w ws] eqn:Hcur.
    - exists groups. rewrite app_nil_r in Hc. auto.
    - exists (groups ++ [w :: ws]). repeat split.
      + apply Forall_app. split; [exact Hne|]. constructor; [discriminate|constructor].
      + rewrite concat_app. cbn [concat]. now rewrite app_nil_r.
      + rewrite Hy, map_app. reflexivity. }
  split; [exact Hgroups|]. split.
  - destruct Hgroups as (groups' & Hne' & Hc' & ->).
    rewrite str_join_groups by exact Hne'. now rewrite Hc'.
  - intros i s Hi Hlen. subst out. unfold join_to_min_length in Hi, Hlen.
    rewrite Forall_lookup in Hn.
    destruct (current_words _) as [|w ws].
    + exact (Hn i s Hi).
    + rewrite length_app in Hlen. cbn [length] in Hlen.
      rewrite lookup_app_l in Hi by lia. exact (Hn i s Hi).
Qed.

(** ** Regular expressions and the noise filter *)

Lemma search_from_alt (r1 r2 : regex) (b : bool) (s : pystr) :
  search_from (Alt r1 r2) b s = search_from r1 b s || search_from r2 b s.
Proof.
  revert b. induction s as [|c s IH]; intros b; cbn [search_from match_here].
  - destruct (match_here r1 b []), (match_here r2 b []); reflexivity.
  - rewrite IH.
    destruct (match_here r1 b (c :: s)), (match_here r2 b (c :: s)); cbn [app orb];
      try reflexivity.
    now rewrite orb_true_r.
Qed.

Lemma re_search_alt (r1 r2 : regex) (s : pystr) :
  re_search (Alt r1 r2) s = re_search r1 s || re_search r2 s.
Proof. apply search_from_alt. Qed.

Lemma search_from_charset (p : N → bool) (b : bool) (s : pystr) :
  search_from (CharSet p) b s = existsb p s.
Proof.
  revert b. induction s as [|c s IH]; intros b; [reflexivity|].
  cbn [search_from match_here existsb]. rewrite IH. now destruct (p c).
Qed.

Lemma plus_ends_all (p : N → bool) (s : pystr) :
  s ≠ [] → forallb p s = true → In (false, []) (plus_ends p s).
Proof.
  induction s as [|c s IH]; [congruence|]. intros _.
  cbn [forallb plus_ends]. intros [Hc Hs]%andb_prop. rewrite Hc.
  destruct s as [|c' s]; [now left|right].
  apply IH; [discriminate|exact Hs].
Qed.

(** A non-empty string of characters of the set matches [^[set]+$]. *)
Lemma re_search_whole (p : N → bool) (s : pystr) :
  s ≠ [] → forallb p s = true →
  re_search (Seq Bol (Seq (CharSetPlus p) Eol)) s = true.
Proof.
  intros Hs Hall. unfold re_search.
  assert (Hm : In (false, []) (match_here (Seq Bol (Seq (CharSetPlus p) Eol)) true s)).
  { cbn [match_here flat_map fst snd]. rewrite app_nil_r.
    apply in_flat_map. exists (false, []). split.
    - apply plus_ends_all; assumption.
    - now left. }
  destruct s as [|c s]; [congruence|].
  cbn [search_from].
  destruct (match_here _ true (c :: s)); [destruct Hm|reflexivity].
Qed.

Section NoiseFilterFacts.
Context `{Externals}.

Lemma sentence_noise_pattern_search (langcode : string) (k : pystr) :
  re_search (sentence_noise_pattern langcode) k
  = re_search punctuation_and_numbers_regex k
    || re_search parenthesis_start_regex k
    || re_search colon_end_regex k
    || (bool_decide (langcode ∈ non_latin_langs) && existsb latin_set k).
Proof.
  unfold sentence_noise_pattern, alt_join. cbn [foldl].
  destruct (decide (langcode ∈ non_latin_langs)) as [Hin|Hout].
  - rewrite bool_decide_eq_true_2 by exact Hin.
    rewrite !re_search_alt. unfold latin_regex, re_search at 4.
    now rewrite search_from_charset.
  - rewrite bool_decide_eq_false_2 by exact Hout.
    rewrite !re_search_alt. now rewrite orb_false_r.
Qed.

Lemma word_noise_pattern_search (langcode : string) (k : pystr) :
  re_search (word_noise_pattern langcode) k
  = re_search punctuation_and_numbers_regex k
    || (bool_decide (langcode ∈ non_latin_langs) && existsb latin_set k).
Proof.
  unfold word_noise_pattern, alt_join. cbn [foldl].
  destruct (decide (langcode ∈ non_latin_langs)) as [Hin|Hout].
  - rewrite bool_decide_eq_true_2 by exact Hin.
    rewrite !re_search_alt. unfold latin_regex, re_search at 2.
    now rewrite search_from_charset.
  - rewrite bool_decide_eq_false_2 by exact Hout.
    now rewrite orb_false_r.
Qed.

(** The filter looks at keys only: a key that matches is gone, any other key
    keeps its count. *)
Lemma counter_get_noise_filter (pattern : regex) (k : pystr) (d : counter) :
  counter_get k (noise_filter pattern d)
  = if re_search pattern k then None else counter_get k d.
Proof.
  unfold noise_filter. induction d as [|[k' v] d IH]; cbn [counter_get].
  - now destruct (re_search pattern k).
  - destruct (decide (k' = k)) as [->|Hne].
    + destruct (re_search pattern k) eqn:Hk.
      * rewrite filter_cons_False by (cbn [fst]; rewrite Hk; discriminate).
        rewrite IH, ?Hk. reflexivity.
      * rewrite filter_cons_True by (exact Hk).
        cbn [counter_get]. now rewrite decide_True.
    + destruct (re_search pattern k') eqn:Hk'.
      * rewrite filter_cons_False by (cbn [fst]; rewrite Hk'; discriminate).
        exact IH.
      * rewrite filter_cons_True by (exact Hk').
        cbn [counter_get]. now rewrite decide_False.
Qed.

Lemma counter_get_pop (k k' : pystr) (d : counter) :
  counter_get k (counter_pop k' d)
  = if decide (k = k') then None else counter_get k d.
Proof.
  unfold counter_pop. induction d as [|[k0 v] d IH]; cbn [counter_get].
  - now destruct (decide (k = k')).
  - destruct (decide (k0 = k')) as [->|Hne].
    + rewrite filter_cons_False by (cbn; tauto). rewrite IH.
      destruct (decide (k = k')) as [->|Hne]; [reflexivity|].
      now rewrite decide_False by congruence.
    + rewrite filter_cons_True by (cbn; congruence). cbn [counter_get].
      destruct (decide (k0 = k)) as [->|Hne'].
      * now rewrite decide_False by congruence.
      * exact IH.
Qed.

End NoiseFilterFacts.

(** C6, amended. For a language of the non-Latin set the noise filter removes
    every key that has a Latin letter (a-z or A-Z), whatever its count. For
    every language it removes, after the empty key is popped, every key made
    only of spaces, underscores, the ASCII digits 0-9 and characters outside
    [\w] (punctuation); the digits of other scripts are not among these.
    Whether a key goes depends on the key and the language code alone
    ([re.search] of the language's pattern on the key), and a key that stays
    keeps its count. Both the sentence and the word filter. *)
Theorem noise_filter_exact `{Externals} (langcode : string) (k : pystr)
    (d : counter) :
  (langcode ∈ non_latin_langs →
   (∃ c, c ∈ k ∧ (in_range 97 122 c || in_range 65 90 c) = true) →
   counter_get k (noise_filter (sentence_noise_pattern langcode) d) = None
   ∧ counter_get k (noise_filter (word_noise_pattern langcode) d) = None)
  ∧ (Forall (λ c, c = 32 ∨ c = 95 ∨ in_range 48 57 c = true ∨ is_word c = false) k →
     counter_get k (noise_filter (sentence_noise_pattern langcode) (counter_pop [] d))
     = None
     ∧ counter_get k (noise_filter (word_noise_pattern langcode) (counter_pop [] d))
       = None)
  ∧ counter_get k (noise_filter (sentence_noise_pattern langcode) d)
    = (if re_search (sentence_noise_pattern langcode) k then None
       else counter_get k d)
  ∧ counter_get k (noise_filter (word_noise_pattern langcode) d)
    = (if re_search (word_noise_pattern langcode) k then None
       else counter_get k d).
Proof.
  split; [|split; [|split; apply counter_get_noise_filter]].
  - intros Hlang (c & Hc & Hlatin).
    assert (Hex : existsb latin_set k = true).
    { apply existsb_exists. exists c. split; [now apply list_elem_of_In|].
      unfold latin_set. apply orb_prop in Hlatin as [-> | ->];
        now rewrite ?orb_true_r. }
    rewrite !counter_get_noise_filter.
    rewrite sentence_noise_pattern_search, word_noise_pattern_search.
    rewrite bool_decide_eq_true_2 by exact Hlang.
    rewrite Hex. cbn [andb]. now rewrite !orb_true_r.
  - intros Hall. rewrite !counter_get_noise_filter, !counter_get_pop.
    destruct (decide (k = [])) as [->|Hk].
    { split; now destruct (re_search _ _). }
    assert (Hm : re_search punctuation_and_numbers_regex k = true).
    { apply re_search_whole; [exact Hk|].
      apply forallb_forall. intros c Hc%list_elem_of_In.
      rewrite Forall_forall in Hall. unfold punct_num_set.
      destruct (Hall c Hc) as [->|[->|[Hd|Hw]]].
      - reflexivity.
      - reflexivity.
      - rewrite Hd. now rewrite !orb_true_r.
      - rewrite Hw. cbn [negb]. now rewrite ?orb_true_r. }
    rewrite sentence_noise_pattern_search, word_noise_pattern_search, Hm.
    split; reflexivity.
Qed.

Lemma noise_filter_exact_witness :
  counter_get (py "ok")
    (noise_filter (@sentence_noise_pattern reference_externals "ru")
       [(py "ok", 7)]) = None
  ∧ counter_get (py "1, 2")
      (noise_filter (@word_noise_pattern reference_externals "en")
         (counter_pop [] [(py "1, 2", 9)])) = None.
Proof.
  split.
  - destruct (@noise_filter_exact reference_externals "ru" (py "ok")
                [(py "ok", 7)]) as (Hlatin & _).
    apply Hlatin.
    + refine (bool_decide_unpack _ _). vm_compute. exact I.
    + exists 111. split; [|reflexivity]. apply list_elem_of_In. now left.
  - destruct (@noise_filter_exact reference_externals "en" (py "1, 2")
                [(py "1, 2", 9)]) as (_ & Hpunct & _).
    apply Hpunct.
    refine (bool_decide_unpack _ _). vm_compute. exact I.
Defined.

(** C6, as stated, fails: the key of the four Arabic-Indic digits 2018, made
    of digits only, stays in both tables of the language ar with its count. *)
Lemma noise_filter_keeps_other_digits :
  let k := [1634; 1632; 1633; 1640] in
  forallb (@isalnum arabic_digits_externals) k = true
  ∧ counter_get k
      (noise_filter (@sentence_noise_pattern arabic_digits_externals "ar")
         (counter_pop [] [(k, 3)])) = Some 3
  ∧ counter_get k
      (noise_filter (@word_noise_pattern arabic_digits_externals "ar")
         (counter_pop [] [(k, 3)])) = Some 3.
Proof. vm_compute. repeat split. Qed.

(** ** Keys of a counter are unique *)









(** ** The two pipelines *)

(** C8. On a corpus file of zero lines both pipelines return without an
    error, write no table and leave both total-count files as they were. *)
Theorem empty_corpus_no_output `{Externals} (cfg : settings)
    (parsedfile outfile langcode : string) (sdt : source_data_type) (w : world) :
  text_files w !! parsedfile = Some [] →
  let rs := parsedfile_to_top_sentences cfg parsedfile outfile langcode sdt w in
  let rw := parsedfile_to_top_words cfg parsedfile outfile langcode sdt w in
  (rs.2 = inr tt
   ∧ csv_files rs.1 = csv_files w
   ∧ total_counts_sentences_file rs.1 = total_counts_sentences_file w
   ∧ total_counts_words_file rs.1 = total_counts_words_file w)
  ∧ (rw.2 = inr tt
     ∧ csv_files rw.1 = csv_files w
     ∧ total_counts_sentences_file rw.1 = total_counts_sentences_file w
     ∧ total_counts_words_file rw.1 = total_counts_words_file w).
Proof.
  intros Hfile rs rw. subst rs rw. run_io. rewrite Hfile.
  cbn. repeat split.
Qed.

Lemma empty_corpus_no_output_witness :
  let w := {| text_files := {[ "bld/tmp/en_raw.txt"%string := [] ]};
              csv_files := ∅;
              total_counts_sentences_file := None;
              total_counts_words_file := None;
              extra_sentences_file := Some ∅;
              directories := ∅ |} in
  let cfg := {| min_count := Some 5; lines_per_chunk := 3;
                lowcase_cutoff := 0.5; n_top_sentences := 2; n_top_words := 3 |} in
  let rs := @parsedfile_to_top_sentences reference_externals cfg
              "bld/tmp/en_raw.txt" "bld/top_sentences/en_top_sentences.csv"
              "en" raw w in
  rs.2 = inr tt ∧ csv_files rs.1 = ∅.
Proof.
  intros w cfg rs.
  destruct (@empty_corpus_no_output reference_externals cfg
              "bld/tmp/en_raw.txt" "bld/top_sentences/en_top_sentences.csv"
              "en" raw w) as ((Hok & Hcsv & _) & _).
  - reflexivity.
  - split; [exact Hok|exact Hcsv].
Defined.



(** ** Sorting *)

Lemma insert_by_perm {A} (leb : A → A → bool) (x : A) (l : list A) :
  insert_by leb x l ≡ₚ x :: l.
Proof.
  induction l as [|y l IH]; cbn [insert_by]; [reflexivity|].
  destruct (leb x y); [reflexivity|].
  rewrite IH. apply perm_swap.
Qed.

Lemma sort_by_perm {A} (leb : A → A → bool) (l : list A) :
  sort_by leb l ≡ₚ l.
Proof.
  induction l as [|x l IH]; [reflexivity|].
  cbn [sort_by foldr]. rewrite insert_by_perm. now apply perm_skip.
Qed.

Lemma insert_by_sorted {A} (leb : A → A → bool) (x : A) (l : list A) :
  (∀ a b, leb a b = true ∨ leb b a = true) →
  Sorted (λ a b, leb a b = true) l →
  Sorted (λ a b, leb a b = true) (insert_by leb x l).
Proof.
  intros Htotal. induction 1 as [|y l Hl IH Hhd]; cbn [insert_by].
  - repeat constructor.
  - destruct (leb x y) eqn:Hxy.
    + constructor; [now constructor|now constructor].
    + constructor; [exact IH|].
      destruct l as [|z l]; cbn [insert_by].
      * constructor. destruct (Htotal x y); congruence.
      * inversion Hhd; subst. destruct (leb x z); constructor; [|assumption].
        destruct (Htotal x y); congruence.
Qed.

Lemma sort_by_sorted {A} (leb : A → A → bool) (l : list A) :
  (∀ a b, leb a b = true ∨ leb b a = true) →
  Sorted (λ a b, leb a b = true) (sort_by leb l).
Proof.
  intros Htotal. induction l as [|x l IH]; [constructor|].
  cbn [sort_by foldr]. now apply insert_by_sorted.
Qed.

Lemma Sorted_weaken {A} (R R' : relation A) (l : list A) :
  (∀ a b, R a b → R' a b) → Sorted R l → Sorted R' l.
Proof.
  intros HR. induction 1 as [|x l Hl IH Hhd]; constructor; [exact IH|].
  destruct Hhd; constructor. now apply HR.
Qed.

Lemma most_common_perm (d : counter) : most_common d ≡ₚ d.
Proof. apply sort_by_perm. Qed.

Lemma most_common_sorted (d : counter) : Sorted count_ge (most_common d).
Proof.
  unfold most_common.
  eapply Sorted_weaken; [|apply sort_by_sorted].
  - intros r1 r2 Hle. unfold count_ge. now apply N.leb_le.
  - intros r1 r2. rewrite !N.leb_le. lia.
Qed.

Lemma most_common_stable : stable_sort most_common.
Proof.
  intros d c. unfold most_common.
  induction d as [|x d IH]; [reflexivity|].
  cbn [sort_by foldr]. fold (sort_by (λ r1 r2 : row, r2.2 <=? r1.2) d).
  rewrite (filter_cons _ x d), <- IH.
  generalize (sort_by (λ r1 r2 : row, r2.2 <=? r1.2) d) as l. clear IH d.
  induction l as [|y l IH]; cbn [insert_by]; [reflexivity|].
  destruct (N.leb_spec y.2 x.2) as [Hle|Hgt]; [reflexivity|].
  rewrite filter_cons, IH.
  destruct (decide (x.2 = c)) as [Hx|Hx].
  - rewrite (filter_cons _ y l). rewrite !decide_False by lia. reflexivity.
  - reflexivity.
Qed.

Global Instance reference_sort_values : @SortValuesSpec reference_externals.
Proof.
  split.
  - apply most_common_perm.
  - apply most_common_sorted.
Qed.

Global Instance count_ge_trans : Transitive count_ge.
Proof. intros r1 r2 r3. unfold count_ge. lia. Qed.

(** A list in descending order has one descending arrangement when no two of
    its counts are equal. *)
Lemma sorted_perm_strict (l s : dataframe) :
  StronglySorted (λ r1 r2 : row, r2.2 < r1.2) l →
  s ≡ₚ l → Sorted count_ge s → s = l.
Proof.
  intros Hl. revert s. induction Hl as [|a l Hl IH Ha]; intros s Hperm Hs.
  - now apply Permutation_nil_r in Hperm.
  - destruct s as [|b s].
    { now apply Permutation_nil_cons in Hperm. }
    assert (Hab : b = a).
    { apply Sorted_StronglySorted in Hs; [|apply count_ge_trans].
      apply StronglySorted_inv in Hs as [_ Hb].
      assert (Hbin : b ∈ a :: l) by (rewrite <- Hperm; left).
      apply elem_of_cons in Hbin as [?|Hbin]; [assumption|].
      assert (Hain : a ∈ b :: s) by (rewrite Hperm; left).
      apply elem_of_cons in Hain as [?|Hain]; [congruence|].
      rewrite Forall_forall in Ha, Hb.
      specialize (Ha b Hbin). specialize (Hb a Hain).
      unfold count_ge in Hb. lia. }
    subst b. f_equal. apply IH.
    + now apply Permutation_cons_inv in Hperm.
    + now apply Sorted_inv in Hs as [? _].
Qed.

(** ** Groups *)

Lemma group_keys_NoDup (keys : list pystr) : NoDup (group_keys keys).
Proof.
  unfold group_keys. rewrite sort_by_perm. apply NoDup_remove_dups.
Qed.

Lemma elem_of_group_keys (g : pystr) (keys : list pystr) :
  g ∈ group_keys keys ↔ g ∈ keys.
Proof.
  unfold group_keys. rewrite sort_by_perm. apply elem_of_remove_dups.
Qed.

Lemma sum_values_filter_split (P : row → Prop) `{!∀ r, Decision (P r)}
    (df : dataframe) :
  sum_values (filter P df) + sum_values (filter (λ r, ¬ P r) df) = sum_values df.
Proof.
  induction df as [|r df IH]; [reflexivity|].
  rewrite !filter_cons. destruct (decide (P r)) as [Hr|Hr].
  - rewrite decide_False by tauto. rewrite !sum_values_cons. lia.
  - rewrite decide_True by exact Hr. rewrite !sum_values_cons. lia.
Qed.

Lemma sum_values_groups (agg : pystr * dataframe → row) (key : pystr → pystr)
    (ks : list pystr) (df : dataframe) :
  agg_sums agg → NoDup ks → (∀ r, r ∈ df → key r.1 ∈ ks) →
  sum_values (map (λ g, agg (g, filter (λ r : row, key r.1 = g) df)) ks)
  = sum_values df.
Proof.
  intros Hagg Hks. revert df. induction Hks as [|g ks Hg Hks IH]; intros df Hdf.
  - destruct df as [|r df]; [reflexivity|].
    exfalso. eapply not_elem_of_nil, (Hdf r). left.
  - cbn [map]. rewrite sum_values_cons, Hagg. cbn [snd].
    rewrite <- (sum_values_filter_split (λ r, key r.1 = g) df). f_equal.
    rewrite <- (IH (filter (λ r, ¬ key r.1 = g) df)).
    + f_equal. apply map_ext_in. intros g' Hg'%list_elem_of_In. f_equal. f_equal.
      rewrite list_filter_filter. apply list_filter_iff.
      intros r. split; [|tauto]. intros ->. split; [reflexivity|congruence].
    + intros r [Hr Hin]%list_elem_of_filter.
      specialize (Hdf r Hin). apply elem_of_cons in Hdf as [?|?]; [congruence|assumption].
Qed.

Lemma elem_of_groupby (key : pystr → pystr) (df : dataframe) (g : pystr)
    (members : dataframe) :
  (g, members) ∈ groupby key df →
  members = filter (λ r : row, key r.1 = g) df
  ∧ ∃ r, r ∈ df ∧ key r.1 = g.
Proof.
  unfold groupby. intros (g' & [= -> ->] & Hg')%list_elem_of_fmap.
  split; [reflexivity|].
  apply elem_of_group_keys, list_elem_of_fmap in Hg' as (r & -> & Hr).
  now exists r.
Qed.

Lemma groupby_elem_of (key : pystr → pystr) (df : dataframe) (r : row) :
  r ∈ df → (key r.1, filter (λ r' : row, key r'.1 = key r.1) df) ∈ groupby key df.
Proof.
  intros Hr. unfold groupby. apply list_elem_of_fmap. exists (key r.1).
  split; [reflexivity|]. apply elem_of_group_keys, list_elem_of_fmap.
  now exists r.
Qed.

Section CollapseFacts.
Context `{Externals} `{!SortValuesSpec}.

Lemma sort_values_sum (df : dataframe) :
  sum_values (sort_values df) = sum_values df.
Proof. apply sum_values_perm, sort_values_perm. Qed.

Lemma sort_values_strict (df : dataframe) :
  StronglySorted (λ r1 r2 : row, r2.2 < r1.2) df → sort_values df = df.
Proof.
  intros Hdf. apply sorted_perm_strict; [exact Hdf| |].
  - apply sort_values_perm.
  - apply sort_values_sorted.
Qed.

(** The shape both collapsers share: group the rows of [pre], a rearrangement
    of the table, aggregate each group, sort. *)
Lemma collapse_generic (agg : pystr * dataframe → row) (key : pystr → pystr)
    (pre df : dataframe) :
  agg_sums agg → agg_picks_member agg → pre ≡ₚ df →
  collapsed_from df key (sort_values (map agg (groupby key pre))).
Proof.
  intros Hsum Hpick Hperm.
  split; [|split; [|split]].
  - rewrite sort_values_sum. unfold groupby. rewrite map_map.
    rewrite sum_values_groups.
    + now apply sum_values_perm.
    + exact Hsum.
    + apply group_keys_NoDup.
    + intros r Hr. apply elem_of_group_keys, list_elem_of_fmap. now exists r.
  - intros w c Hin. rewrite sort_values_perm in Hin.
    apply list_elem_of_fmap in Hin as ([g members] & Hx & Hg).
    apply elem_of_groupby in Hg as (-> & r0 & Hr0 & Hk0).
    assert (Hne : filter (λ r : row, key r.1 = g) pre ≠ []).
    { intros Hnil. eapply not_elem_of_nil. rewrite <- Hnil.
      apply list_elem_of_filter. split; [exact Hk0|exact Hr0]. }
    destruct (Hpick g _ Hne) as (r & [Hkr Hr]%list_elem_of_filter & Hname).
    pose proof (Hsum (g, filter (λ r : row, key r.1 = g) pre)) as Hc.
    rewrite <- Hx in Hname, Hc. cbn [fst snd] in Hname, Hc. subst w c.
    split.
    + apply list_elem_of_fmap. exists r. split; [reflexivity|]. now rewrite <- Hperm.
    + rewrite Hkr. apply sum_values_perm. now rewrite Hperm.
  - intros r Hr. rewrite <- Hperm in Hr.
    pose proof (groupby_elem_of key pre r Hr) as Hg.
    assert (Hne : filter (λ r' : row, key r'.1 = key r.1) pre ≠ []).
    { intros Hnil. eapply not_elem_of_nil. rewrite <- Hnil.
      apply list_elem_of_filter. split; [reflexivity|exact Hr]. }
    destruct (Hpick (key r.1) _ Hne) as (r' & [Hkr' Hr']%list_elem_of_filter & Hname).
    exists (agg (key r.1, filter (λ r' : row, key r'.1 = key r.1) pre)).1,
           (agg (key r.1, filter (λ r' : row, key r'.1 = key r.1) pre)).2.
    split.
    + rewrite sort_values_perm. rewrite <- surjective_pairing.
      apply list_elem_of_fmap. eexists. split; [reflexivity|exact Hg].
    + now rewrite Hname.
  - apply sort_values_sorted.
Qed.

End CollapseFacts.

(** ** The aggregations of the two collapsers *)

Lemma agg_first_sum_sums : agg_sums agg_first_sum.
Proof. intros group. reflexivity. Qed.

Lemma agg_first_sum_picks : agg_picks_member agg_first_sum.
Proof.
  intros g [|r members] Hne; [congruence|].
  exists r. split; [left|reflexivity].
Qed.

Lemma idxmax_from_elem (f : row → float) (best : row) (rest : dataframe) :
  idxmax_from f best rest ∈ best :: rest.
Proof.
  revert best. induction rest as [|r rest IH]; intros best; cbn [idxmax_from].
  - left.
  - destruct (PrimFloat.ltb (f best) (f r)).
    + right. apply IH.
    + specialize (IH best). apply elem_of_cons in IH as [->|?].
      * left.
      * right. now right.
Qed.

Lemma wordcase_by_cutoff_sums (cutoff : float) : agg_sums (wordcase_by_cutoff cutoff).
Proof.
  intros [wordlow df]. unfold wordcase_by_cutoff.
  destruct (List.find _ df); [reflexivity|]. now destruct df.
Qed.

Lemma wordcase_by_cutoff_picks (cutoff : float) :
  agg_picks_member (wordcase_by_cutoff cutoff).
Proof.
  intros wordlow df Hne. unfold wordcase_by_cutoff.
  destruct (List.find _ df) as [r|] eqn:Hfind.
  - apply find_some in Hfind as [Hin [Hlow _]%andb_prop].
    exists r. split; [now apply list_elem_of_In|].
    apply bool_decide_eq_true in Hlow. now rewrite Hlow.
  - destruct df as [|r rest]; [congruence|].
    eexists. split; [apply idxmax_from_elem|reflexivity].
Qed.

(** C2. For every table, each collapser (sentences by stripped endings, words
    by lower-cased form under either cutoff policy) keeps the total of the
    counts; every output row is named after a member of its group and carries
    the sum of the counts of all rows of that group; every input row has its
    group in the output; and the output is in descending order of count. *)
Theorem collapse_conserves_and_sorts `{Externals} `{!SortValuesSpec}
    (df : dataframe) (cutoff : float) :
  collapsed_from df (str_strip sentence_endings)
    (collapse_if_only_ending_differently df)
  ∧ collapsed_from df str_lower (collapse_case df 0.5)
  ∧ collapsed_from df str_lower (collapse_case df cutoff).
Proof.
  assert (Hfirst : ∀ key,
    collapsed_from df key
      (sort_values (map agg_first_sum (groupby key (sort_values df))))).
  { intros key. apply collapse_generic.
    - apply agg_first_sum_sums.
    - apply agg_first_sum_picks.
    - apply sort_values_perm. }
  assert (Hcase : ∀ c : float, collapsed_from df str_lower (collapse_case df c)).
  { intros c. unfold collapse_case. destruct (PrimFloat.eqb c 0.5).
    - apply Hfirst.
    - apply collapse_generic.
      + apply wordcase_by_cutoff_sums.
      + apply wordcase_by_cutoff_picks.
      + reflexivity. }
  split; [apply Hfirst|]. split; apply Hcase.
Qed.

(** ** The case-collapse example *)

Lemma group_keys_single (g : pystr) (keys : list pystr) :
  keys ≠ [] → Forall (λ k, k = g) keys → group_keys keys = [g].
Proof.
  intros Hne Hall. unfold group_keys.
  assert (Hrd : remove_dups keys = [g]).
  { induction Hall as [|k keys -> Hall IH]; [congruence|].
    cbn [remove_dups]. case_decide as Hin.
    - apply IH. intros ->. now apply not_elem_of_nil in Hin.
    - destruct keys as [|k' keys]; [reflexivity|].
      exfalso. apply Hin. inversion Hall; subst. left. }
  now rewrite Hrd.
Qed.

Lemma groupby_single (key : pystr → pystr) (g : pystr) (df : dataframe) :
  df ≠ [] → Forall (λ r : row, key r.1 = g) df → groupby key df = [(g, df)].
Proof.
  intros Hne Hall. unfold groupby.
  rewrite (group_keys_single g).
  - cbn [map]. f_equal. f_equal.
    induction Hall as [|r df Hr Hall IH]; [reflexivity|].
    rewrite filter_cons_True by exact Hr. f_equal.
    destruct df; [reflexivity|]. apply IH. discriminate.
  - destruct df; [congruence|discriminate].
  - apply Forall_fmap. exact Hall.
Qed.

(** C4. The group of Run with count 70 and run with count 30, in either row
    order: with cutoff 0.5 the collapsed row is Run with count 100; with
    cutoff 0.2 it is run with count 100, the share 30/100 of the lower-case
    member being above the cutoff. *)
Theorem case_collapse_cutoff `{Externals} `{!SortValuesSpec} (df : dataframe) :
  str_lower (py "Run") = py "run" →
  str_lower (py "run") = py "run" →
  df ≡ₚ [(py "Run", 70); (py "run", 30)] →
  collapse_case df 0.5 = [(py "Run", 100)]
  ∧ collapse_case df cutoff_0_2 = [(py "run", 100)]
  ∧ PrimFloat.ltb cutoff_0_2 (PrimFloat.div (float_of_N 30) (float_of_N 100)) = true.
Proof.
  intros HRun Hrun Hperm.
  assert (Hgroup : ∀ l, l ≡ₚ [(py "Run", 70); (py "run", 30)] →
            groupby str_lower l = [(py "run", l)]).
  { intros l Hl. apply groupby_single.
    - intros ->. now apply Permutation_nil_cons in Hl.
    - rewrite Hl. repeat constructor; assumption. }
  split; [|split; [|reflexivity]].
  - unfold collapse_case.
    change (PrimFloat.eqb 0.5 0.5) with true. cbv iota.
    assert (Hsorted : sort_values df = [(py "Run", 70); (py "run", 30)]).
    { apply sorted_perm_strict.
      - repeat constructor.
      - now rewrite sort_values_perm.
      - apply sort_values_sorted. }
    rewrite Hsorted, Hgroup by reflexivity.
    apply sort_values_strict. repeat constructor.
  - unfold collapse_case.
    change (PrimFloat.eqb cutoff_0_2 0.5) with false. cbv iota.
    rewrite Hgroup by exact Hperm. cbn [map].
    assert (Hrow : wordcase_by_cutoff cutoff_0_2 (py "run", df) = (py "run", 100)).
    { apply Permutation_sym, Permutation_length_2_inv in Hperm as [-> | ->];
        vm_compute; reflexivity. }
    rewrite Hrow. apply sort_values_strict. repeat constructor.
Qed.

Lemma case_collapse_cutoff_witness :
  @collapse_case reference_externals [(py "Run", 70); (py "run", 30)] 0.5
  = [(py "Run", 100)]
  ∧ @collapse_case reference_externals [(py "Run", 70); (py "run", 30)] cutoff_0_2
    = [(py "run", 100)].
Proof.
  destruct (@case_collapse_cutoff reference_externals reference_sort_values
              [(py "Run", 70); (py "run", 30)]) as (H05 & H02 & _).
  - reflexivity.
  - reflexivity.
  - reflexivity.
  - split; [exact H05|exact H02].
Defined.

Lemma collapse_conserves_and_sorts_witness :
  sum_values (@collapse_if_only_ending_differently reference_externals
                [(py "Hi!", 5); (py "Hi.", 4); (py "Yo", 3)]) = 12
  ∧ @collapse_if_only_ending_differently reference_externals
      [(py "Hi!", 5); (py "Hi.", 4); (py "Yo", 3)]
    = [(py "Hi!", 9); (py "Yo", 3)].
Proof.
  destruct (@collapse_conserves_and_sorts reference_externals reference_sort_values
              [(py "Hi!", 5); (py "Hi.", 4); (py "Yo", 3)] cutoff_0_2)
    as ((Hsum & _) & _).
  split.
  - rewrite Hsum. reflexivity.
  - vm_compute. reflexivity.
Defined.

(** ** Sentence collapse and the order of ties *)

Lemma StronglySorted_filter {A} (R : relation A) (P : A → Prop)
    `{!∀ x, Decision (P x)} (l : list A) :
  StronglySorted R l → StronglySorted R (filter P l).
Proof.
  induction 1 as [|x l Hl IH Hx]; [constructor|].
  rewrite filter_cons. destruct (decide (P x)); [|exact IH].
  constructor; [exact IH|].
  rewrite Forall_forall in Hx |- *.
  intros y [_ Hy]%list_elem_of_filter. now apply Hx.
Qed.

Lemma filter_head_split {A} (P : A → Prop) `{!∀ x, Decision (P x)}
    (l : list A) (x : A) (t : list A) :
  filter P l = x :: t →
  ∃ pre post, l = pre ++ x :: post ∧ Forall (λ y, ¬ P y) pre ∧ P x.
Proof.
  induction l as [|y l IH]; [discriminate|].
  rewrite filter_cons. destruct (decide (P y)) as [Hy|Hy].
  - intros [= -> <-]. exists [], l. repeat split; [constructor|exact Hy].
  - intros (pre & post & -> & Hpre & Hx)%IH.
    exists (y :: pre), post. repeat split; [now constructor|exact Hx].
Qed.

(** Two descending arrangements of the same rows that agree on the order of
    the rows of each count are the same list. *)
Lemma sorted_stable_unique (l s : dataframe) :
  Sorted count_ge l → Sorted count_ge s → s ≡ₚ l →
  (∀ c, filter (λ r : row, r.2 = c) s = filter (λ r : row, r.2 = c) l) →
  s = l.
Proof.
  intros Hl. revert s. induction Hl as [|a l Hl IH Ha]; intros s Hs Hperm Hst.
  - now apply Permutation_nil_r in Hperm.
  - destruct s as [|b s].
    { now apply Permutation_nil_cons in Hperm. }
    assert (Hal : Forall (count_ge a) l).
    { assert (Hss : StronglySorted count_ge (a :: l)).
      { apply Sorted_StronglySorted; [apply count_ge_trans|now constructor]. }
      now apply StronglySorted_inv in Hss as [_ ?]. }
    assert (Hbs : Forall (count_ge b) s).
    { apply Sorted_StronglySorted in Hs; [|apply count_ge_trans].
      now apply StronglySorted_inv in Hs as [_ ?]. }
    assert (Hcount : a.2 = b.2).
    { assert (Hbin : b ∈ a :: l) by (rewrite <- Hperm; left).
      assert (Hain : a ∈ b :: s) by (rewrite Hperm; left).
      rewrite Forall_forall in Hal, Hbs. unfold count_ge in Hal, Hbs.
      apply elem_of_cons in Hbin as [->|Hbin]; [reflexivity|].
      apply elem_of_cons in Hain as [->|Hain]; [reflexivity|].
      specialize (Hal b Hbin). specialize (Hbs a Hain). lia. }
    assert (Hab : b = a).
    { specialize (Hst a.2). rewrite !filter_cons in Hst.
      rewrite decide_True in Hst by (symmetry; exact Hcount).
      rewrite decide_True in Hst by reflexivity. congruence. }
    subst b. f_equal. apply IH.
    + now apply Sorted_inv in Hs as [? _].
    + now apply Permutation_cons_inv in Hperm.
    + intros c. specialize (Hst c). rewrite !filter_cons in Hst.
      destruct (decide (a.2 = c)); congruence.
Qed.

Section SentenceCollapse.
Context `{Externals} `{!SortValuesSpec}.

(** The row of a group after the sentence collapse comes from the head of the
    group in the sorted table. *)
Lemma collapse_row_head (df : dataframe) (w : pystr) (c : N) :
  (w, c) ∈ collapse_if_only_ending_differently df →
  ∃ n tl,
    filter (λ r : row, str_strip sentence_endings r.1
                       = str_strip sentence_endings w) (sort_values df)
    = (w, n) :: tl
    ∧ Forall (λ r : row, r.2 ≤ n) tl
    ∧ c = sum_values ((w, n) :: tl).
Proof.
  set (key := str_strip sentence_endings).
  unfold collapse_if_only_ending_differently. fold key.
  intros Hin. rewrite sort_values_perm in Hin.
  apply list_elem_of_fmap in Hin as ([g members'] & Hx & Hg).
  apply elem_of_groupby in Hg as (Hm' & r1 & Hr1 & Hk1).
  destruct members' as [|[w0 n] tl].
  { exfalso. eapply not_elem_of_nil. rewrite Hm'.
    apply list_elem_of_filter. split; [exact Hk1|exact Hr1]. }
  unfold agg_first_sum in Hx. cbn [agg_first fst snd] in Hx.
  injection Hx as <- ->.
  assert (Hkw : key w = g).
  { assert (Hin : (w, n) ∈ filter (λ r : row, key r.1 = g) (sort_values df))
      by (rewrite <- Hm'; left).
    now apply list_elem_of_filter in Hin as [? _]. }
  exists n, tl. rewrite Hkw, <- Hm'. split; [reflexivity|]. split; [|reflexivity].
  assert (Hss : StronglySorted count_ge ((w, n) :: tl)).
  { rewrite Hm'. apply StronglySorted_filter.
    apply Sorted_StronglySorted; [apply count_ge_trans|apply sort_values_sorted]. }
  now apply StronglySorted_inv in Hss as [_ Htl].
Qed.

(** Whatever the order of ties: the row is named after a member whose count
    no member of the group exceeds, and carries the sum over the group. *)
Lemma collapse_member_of_highest (df : dataframe) (w : pystr) (c : N) :
  (w, c) ∈ collapse_if_only_ending_differently df →
  let members :=
    filter (λ r : row, str_strip sentence_endings r.1
                       = str_strip sentence_endings w) df in
  ∃ n, (w, n) ∈ members
       ∧ Forall (λ r : row, r.2 ≤ n) members
       ∧ c = sum_values members.
Proof.
  intros (n & tl & Hhead & Htl & ->)%collapse_row_head members.
  assert (Hperm : (w, n) :: tl ≡ₚ members).
  { rewrite <- Hhead. subst members. now rewrite sort_values_perm. }
  exists n. split; [|split].
  - rewrite <- Hperm. left.
  - rewrite <- Hperm. constructor; [cbn; lia|exact Htl].
  - now apply sum_values_perm.
Qed.

(** The three variants of Hi there, in any table order, collapse to one row
    of count 11, named after one of the two variants of count 5. *)
Lemma collapse_hi_there (df : dataframe) :
  df ≡ₚ [(py "Hi there!", 5); (py "Hi there.", 5); (py "Hi there", 1)] →
  ∃ w, collapse_if_only_ending_differently df = [(w, 11)]
       ∧ (w = py "Hi there!" ∨ w = py "Hi there.").
Proof.
  intros Hperm. unfold collapse_if_only_ending_differently.
  assert (Hs : sort_values df
               ≡ₚ [(py "Hi there!", 5); (py "Hi there.", 5); (py "Hi there", 1)])
    by now rewrite sort_values_perm.
  pose proof (sort_values_sorted df) as Hsorted.
  assert (Hall : Forall (λ r : row, str_strip sentence_endings r.1 = py "Hi there")
                   (sort_values df)).
  { rewrite Hs. repeat constructor. }
  destruct (sort_values df) as [|[w n] tl].
  { now apply Permutation_nil_cons in Hs. }
  rewrite (groupby_single _ (py "Hi there")) by (discriminate || exact Hall).
  cbn [map]. unfold agg_first_sum. cbn [agg_first fst snd].
  rewrite (sum_values_perm _ _ Hs).
  change (sum_values _) with 11.
  exists w. split.
  - apply sort_values_strict. repeat constructor.
  - apply Sorted_StronglySorted in Hsorted; [|apply count_ge_trans].
    apply StronglySorted_inv in Hsorted as [_ Hle].
    assert (Hfive : 5 ≤ n).
    { assert (Hin : (py "Hi there!", 5) ∈ (w, n) :: tl) by (rewrite Hs; left).
      apply elem_of_cons in Hin as [Heq|Hin].
      - injection Heq as _ <-. lia.
      - rewrite Forall_forall in Hle. apply (Hle _ Hin). }
    assert (Hw : (w, n) ∈ [(py "Hi there!", 5); (py "Hi there.", 5);
                           (py "Hi there", 1)]) by (rewrite <- Hs; left).
    apply elem_of_cons in Hw as [Heq|Hw]; [injection Heq as -> _; now left|].
    apply elem_of_cons in Hw as [Heq|Hw]; [injection Heq as -> _; now right|].
    apply elem_of_cons in Hw as [Heq|Hw]; [injection Heq as _ ->; lia|].
    now apply elem_of_nil in Hw.
Qed.

Hypothesis sort_values_stable : stable_sort sort_values.

Lemma sort_values_sorted_id (df : dataframe) :
  Sorted count_ge df → sort_values df = df.
Proof.
  intros Hdf. apply sorted_stable_unique.
  - exact Hdf.
  - apply sort_values_sorted.
  - apply sort_values_perm.
  - intros c. apply sort_values_stable.
Qed.

(** With a stable sort: the row is named after the first member, in table
    order, among those of the highest count. *)
Lemma collapse_first_of_highest (df : dataframe) (w : pystr) (c : N) :
  (w, c) ∈ collapse_if_only_ending_differently df →
  let members :=
    filter (λ r : row, str_strip sentence_endings r.1
                       = str_strip sentence_endings w) df in
  ∃ n pre post,
    members = pre ++ (w, n) :: post
    ∧ Forall (λ r : row, r.2 < n) pre
    ∧ Forall (λ r : row, r.2 ≤ n) post
    ∧ c = sum_values members.
Proof.
  set (key := str_strip sentence_endings).
  intros (n & tl & Hhead & Htl & ->)%collapse_row_head. fold key in Hhead.
  set (members := filter (λ r : row, key r.1 = key w) df).
  assert (Hperm : (w, n) :: tl ≡ₚ members).
  { rewrite <- Hhead. subst members. now rewrite sort_values_perm. }
  assert (Hle : Forall (λ r : row, r.2 ≤ n) members).
  { rewrite <- Hperm. constructor; [cbn; lia|exact Htl]. }
  assert (Hst : filter (λ r : row, r.2 = n) members
                = (w, n) :: filter (λ r : row, r.2 = n) tl).
  { rewrite <- (filter_cons_True (λ r : row, r.2 = n) (w, n) tl) by reflexivity.
    rewrite <- Hhead. subst members.
    rewrite !list_filter_filter.
    rewrite (list_filter_iff _ (λ r : row, key r.1 = key w ∧ r.2 = n)) by tauto.
    rewrite (list_filter_iff (λ r : row, r.2 = n ∧ key r.1 = key w)
               (λ r : row, key r.1 = key w ∧ r.2 = n)) by tauto.
    rewrite <- !list_filter_filter. f_equal. symmetry. apply sort_values_stable. }
  apply filter_head_split in Hst as (pre & post & Hsplit & Hpre & _).
  exists n, pre, post. split; [exact Hsplit|].
  rewrite Hsplit in Hle. apply Forall_app in Hle as [Hle_pre Hle_post].
  apply Forall_cons in Hle_post as [_ Hle_post].
  split; [|split; [exact Hle_post|]].
  - rewrite Forall_forall in Hpre, Hle_pre |- *.
    intros r Hr. specialize (Hpre r Hr). specialize (Hle_pre r Hr). cbn in *. lia.
  - now apply sum_values_perm.
Qed.

End SentenceCollapse.

(** C5, amended. In sentence collapse the row of every group is named after
    a member of the highest count in the group and carries the sum over the
    group; among the members of the highest count it is the one that the
    descending sort of the table lists first, whichever that is. The three
    variants of Hi there, with counts 5, 5 and 1, in any table order collapse
    to one row of count 11 named after one of the two tied variants. *)
Theorem sentence_collapse_highest_member `{Externals} `{!SortValuesSpec} :
  (∀ df w c,
     (w, c) ∈ collapse_if_only_ending_differently df →
     let members :=
       filter (λ r : row, str_strip sentence_endings r.1
                          = str_strip sentence_endings w) df in
     ∃ n, (w, n) ∈ members
          ∧ Forall (λ r : row, r.2 ≤ n) members
          ∧ c = sum_values members)
  ∧ (∀ df w c,
       (w, c) ∈ collapse_if_only_ending_differently df →
       ∃ n tl,
         filter (λ r : row, str_strip sentence_endings r.1
                            = str_strip sentence_endings w) (sort_values df)
         = (w, n) :: tl
         ∧ Forall (λ r : row, r.2 ≤ n) tl)
  ∧ (∀ df,
       df ≡ₚ [(py "Hi there!", 5); (py "Hi there.", 5); (py "Hi there", 1)] →
       ∃ w, collapse_if_only_ending_differently df = [(w, 11)]
            ∧ (w = py "Hi there!" ∨ w = py "Hi there.")).
Proof.
  split; [intros df w c; apply collapse_member_of_highest|].
  split; [|apply collapse_hi_there].
  intros df w c (n & tl & Hhead & Htl & _)%collapse_row_head.
  now exists n, tl.
Qed.

Lemma sentence_collapse_highest_member_witness :
  ∃ w, @collapse_if_only_ending_differently reference_externals
         [(py "Hi there!", 5); (py "Hi there.", 5); (py "Hi there", 1)]
       = [(w, 11)]
       ∧ (w = py "Hi there!" ∨ w = py "Hi there.").
Proof.
  destruct (@sentence_collapse_highest_member reference_externals
              reference_sort_values) as (_ & _ & Hexample).
  apply Hexample. reflexivity.
Defined.

(** C5, as stated, fails: a sort that permutes the table into descending
    order of count, as [sort_values] does, and lists rows of equal count in
    reverse, names the row of the three variants after the tied variant that
    comes second in the table. *)
Lemma sentence_collapse_tie_not_first :
  (∀ df, @sort_values reversing_externals df ≡ₚ df)
  ∧ (∀ df, Sorted count_ge (@sort_values reversing_externals df))
  ∧ @collapse_if_only_ending_differently reversing_externals
      [(py "Hi there!", 5); (py "Hi there.", 5); (py "Hi there", 1)]
    = [(py "Hi there.", 11)].
Proof.
  split; [|split].
  - intros df. cbn [sort_values reversing_externals]. unfold reversing_sort.
    rewrite most_common_perm. symmetry. apply Permutation_rev.
  - intros df. apply most_common_sorted.
  - vm_compute. reflexivity.
Qed.

(** ** Exclusion and truncation *)

(** C7. The exclusion list is applied to the ranked table before [head]: the
    output has as many rows as the limit allows among the rows not excluded.
    With the ranked rows A 100, B 90, C 80, the limit 2 and A excluded, the
    output is B 90, C 80, both on the ranked table and through the whole
    ranking of the sentence pipeline. *)
Theorem exclusion_before_truncation `{Externals} `{!SortValuesSpec}
    (cfg : settings) (sdt : source_data_type) :
  let ranked := [(py "A", 100); (py "B", 90); (py "C", 80)] in
  (∀ (excluded : list pystr) (n : N) (df : dataframe),
     length (head n (exclude_sentences (Some excluded) df))
     = (N.to_nat n `min` length (filter (λ r : row, r.1 ∉ excluded) df))%nat)
  ∧ head 2 (exclude_sentences (Some [py "A"]) ranked)
    = [(py "B", 90); (py "C", 80)]
  ∧ (n_top_sentences cfg = 2 → min_count cfg = Some 5 →
     rank_sentences cfg sdt (Some [py "A"]) ranked
     = [(py "B", 90); (py "C", 80)]).
Proof.
  intros ranked. split; [|split].
  - intros excluded n df. unfold head, exclude_sentences. apply length_take.
  - reflexivity.
  - intros Hn Hmin. unfold rank_sentences. rewrite Hn, Hmin.
    replace (most_common _) with ranked by (destruct sdt; reflexivity).
    unfold collapse_if_only_ending_differently.
    rewrite (sort_values_strict ranked) by (repeat constructor).
    replace (map agg_first_sum (groupby _ ranked)) with ranked by reflexivity.
    rewrite (sort_values_strict ranked) by (repeat constructor).
    reflexivity.
Qed.

Lemma exclusion_before_truncation_witness :
  let cfg := {| min_count := Some 5; lines_per_chunk := 10;
                lowcase_cutoff := 0.5; n_top_sentences := 2; n_top_words := 3 |} in
  @rank_sentences reference_externals cfg text (Some [py "A"])
    [(py "A", 100); (py "B", 90); (py "C", 80)]
  = [(py "B", 90); (py "C", 80)].
Proof.
  intros cfg.
  destruct (@exclusion_before_truncation reference_externals
              reference_sort_values cfg text) as (_ & _ & Hrank).
  apply Hrank; reflexivity.
Defined.

(** * Further properties of the program *)

(** ** Output files *)

Lemma string_length_app (s t : string) :
  String.length (s +:+ t) = (String.length s + String.length t)%nat.
Proof.
  induction s as [|c s IH]; [reflexivity|].
  change (String c s +:+ t) with (String c (s +:+ t)).
  cbn [String.length]. now rewrite IH.
Qed.

Lemma string_app_inj_r (s1 s2 t : string) :
  s1 +:+ t = s2 +:+ t → s1 = s2.
Proof.
  revert s2. induction s1 as [|c s1 IH]; intros [|c' s2] Heq.
  - reflexivity.
  - apply (f_equal String.length) in Heq.
    rewrite !string_length_app in Heq. cbn [String.length] in Heq. lia.
  - apply (f_equal String.length) in Heq.
    rewrite !string_length_app in Heq. cbn [String.length] in Heq. lia.
  - change (String c (s1 +:+ t) = String c' (s2 +:+ t)) in Heq.
    injection Heq as -> Heq. f_equal. now apply IH.
Qed.

Lemma sentence_outfile_inj (l1 l2 : string) :
  sentence_outfile l1 = sentence_outfile l2 → l1 = l2.
Proof.
  unfold sentence_outfile. intros Heq. apply (inj (String.app _)) in Heq.
  now apply string_app_inj_r in Heq.
Qed.

Lemma word_outfile_inj (l1 l2 : string) :
  word_outfile l1 = word_outfile l2 → l1 = l2.
Proof.
  unfold word_outfile. intros Heq. apply (inj (String.app _)) in Heq.
  now apply string_app_inj_r in Heq.
Qed.

Lemma sentence_word_outfile_ne (l1 l2 : string) :
  sentence_outfile l1 ≠ word_outfile l2.
Proof. unfold sentence_outfile, word_outfile. intros Heq. discriminate Heq. Qed.

(** X1. Two languages never share an output file, and no table of sentences is
    written where a table of words is. *)
Theorem outfiles_distinct (l1 l2 : string) :
  (sentence_outfile l1 = sentence_outfile l2 → l1 = l2)
  ∧ (word_outfile l1 = word_outfile l2 → l1 = l2)
  ∧ sentence_outfile l1 ≠ word_outfile l2.
Proof.
  split; [apply sentence_outfile_inj|].
  split; [apply word_outfile_inj|apply sentence_word_outfile_ne].
Qed.

(** ** Language codes *)

(** X2. [check_langcodes] passes exactly the lists of valid codes, and raises
    for the first code of the list that is not valid. *)
Theorem check_langcodes_first_invalid (langcodes : list string) :
  (check_langcodes langcodes = inr tt ↔ Forall (λ l, l ∈ valid_langcodes) langcodes)
  ∧ (∀ pre bad post,
       langcodes = pre ++ bad :: post →
       Forall (λ l, l ∈ valid_langcodes) pre →
       bad ∉ valid_langcodes →
       check_langcodes langcodes = inl (NotAValidLangcode bad)).
Proof.
  split.
  - induction langcodes as [|l ls IH]; cbn [check_langcodes].
    + split; [constructor|reflexivity].
    + destruct (decide (l ∈ valid_langcodes)) as [Hl|Hl].
      * rewrite IH. split; [now constructor|]. now inversion 1.
      * split; [discriminate|]. inversion 1; subst. contradiction.
  - intros pre bad post -> Hpre Hbad.
    induction Hpre as [|l pre Hl Hpre IH]; cbn [app check_langcodes].
    + now rewrite decide_False.
    + now rewrite decide_True.
Qed.

Lemma check_langcodes_first_invalid_witness :
  check_langcodes ["en"; "xx"; "yy"]%string = inl (NotAValidLangcode "xx").
Proof.
  destruct (check_langcodes_first_invalid ["en"; "xx"; "yy"]%string) as (_ & Hbad).
  apply (Hbad ["en"%string] "xx"%string ["yy"%string]).
  - reflexivity.
  - constructor; [|constructor]. refine (bool_decide_unpack _ _). vm_compute. exact I.
  - refine (bool_decide_unpack _ _). vm_compute. exact I.
Defined.

Lemma string_split_head_no_sep (sep : ascii) (s : string) :
  ∃ w ws, string_split sep s = w :: ws
          ∧ string_split sep w = [w].
Proof.
  induction s as [|c s (w & ws & IH & IHw)]; cbn [string_split].
  - exists EmptyString, []. split; reflexivity.
  - destruct (decide (c = sep)) as [->|Hc].
    + exists EmptyString, (string_split sep s). split; reflexivity.
    + rewrite IH. exists (String c w), ws. split; [reflexivity|].
      cbn [string_split]. rewrite decide_False by exact Hc. now rewrite IHw.
Qed.

(** X3. Normalizing a language code twice is normalizing it once: the result has
    no underscore left and is not one of the two dual-language codes. *)
Theorem normalized_langcode_idempotent (langcode : string) :
  normalized_langcode (normalized_langcode langcode)
  = normalized_langcode langcode
  ∧ string_split "_" (normalized_langcode langcode) = [normalized_langcode langcode].
Proof.
  assert (Hsplit : string_split "_" (normalized_langcode langcode)
                   = [normalized_langcode langcode]).
  { unfold normalized_langcode.
    destruct (decide (langcode = "ze_en"%string ∨ langcode = "ze_zh"%string))
      as [[-> | ->]|Hne]; [reflexivity|reflexivity|].
    destruct (string_split_head_no_sep "_" langcode) as (w & ws & -> & Hw).
    exact Hw. }
  split; [|exact Hsplit].
  set (norm := normalized_langcode langcode) in *.
  unfold normalized_langcode at 1.
  destruct (decide (norm = "ze_en"%string ∨ norm = "ze_zh"%string))
    as [[Hn | Hn]|Hne].
  - rewrite Hn in Hsplit. discriminate Hsplit.
  - rewrite Hn in Hsplit. discriminate Hsplit.
  - now rewrite Hsplit.
Qed.

(** ** Stripping *)

Lemma drop_while_head {A} (p : A → bool) (s : list A) (c : A) (t : list A) :
  drop_while p s = c :: t → p c = false.
Proof.
  induction s as [|x s IH]; cbn [drop_while]; [discriminate|].
  destruct (p x) eqn:Hx; [exact IH|]. now intros [= <- _].
Qed.

Lemma drop_while_id {A} (p : A → bool) (c : A) (t : list A) :
  p c = false → drop_while p (c :: t) = c :: t.
Proof. intros Hc. cbn [drop_while]. now rewrite Hc. Qed.

Lemma drop_while_suffix {A} (p : A → bool) (s : list A) :
  ∃ a, s = a ++ drop_while p s ∧ forallb p a = true.
Proof.
  induction s as [|x s (a & IH & Ha)]; cbn [drop_while].
  - now exists [].
  - destruct (p x) eqn:Hx.
    + exists (x :: a). cbn [app forallb]. rewrite Hx, Ha. split; [now f_equal|reflexivity].
    + now exists [].
Qed.

Lemma rstrip_by_prefix (p : N → bool) (s : pystr) :
  ∃ b, s = rstrip_by p s ++ b ∧ forallb p b = true.
Proof.
  unfold rstrip_by. destruct (drop_while_suffix p (rev s)) as (a & Ha & Hp).
  exists (rev a). split.
  - rewrite <- rev_app_distr, <- Ha. now rewrite rev_involutive.
  - rewrite forallb_forall in Hp |- *. intros x Hx. apply Hp. now apply in_rev.
Qed.

Lemma rstrip_by_last (p : N → bool) (s t : pystr) (c : N) :
  rstrip_by p s = t ++ [c] → p c = false.
Proof.
  unfold rstrip_by. intros Heq.
  apply (f_equal (@rev N)) in Heq. rewrite rev_involutive, rev_unit in Heq.
  now apply drop_while_head in Heq.
Qed.

Lemma rstrip_by_id (p : N → bool) (t : pystr) (c : N) :
  p c = false → rstrip_by p (t ++ [c]) = t ++ [c].
Proof.
  intros Hc. unfold rstrip_by. rewrite rev_unit, drop_while_id by exact Hc.
  now rewrite <- rev_unit, rev_involutive.
Qed.

Lemma list_snoc_cases {A} (l : list A) : l = [] ∨ ∃ t c, l = t ++ [c].
Proof.
  destruct (rev l) as [|c t] eqn:Hrev.
  - left. apply (f_equal (@rev A)) in Hrev. now rewrite rev_involutive in Hrev.
  - right. exists (rev t), c. apply (f_equal (@rev A)) in Hrev.
    now rewrite rev_involutive in Hrev.
Qed.

(** The result of [strip]: empty, or with a first and a last character that
    are not among the stripped ones. *)
Lemma str_strip_ends (chars s : pystr) :
  (∀ c t, str_strip chars s = c :: t → c ∉ chars)
  ∧ (∀ c t, str_strip chars s = t ++ [c] → c ∉ chars).
Proof.
  unfold str_strip. set (p := λ c, bool_decide (c ∈ chars)).
  unfold lstrip_by. split.
  - intros c t Heq.
    destruct (rstrip_by_prefix p (drop_while p s)) as (b & Hb & _).
    rewrite Heq in Hb. cbn [app] in Hb. apply drop_while_head in Hb.
    now apply bool_decide_eq_false in Hb.
  - intros c t Heq. apply rstrip_by_last in Heq.
    now apply bool_decide_eq_false in Heq.
Qed.

(** A string that neither starts nor ends with a stripped character is left
    as it is. *)
Lemma str_strip_fixed (chars s : pystr) :
  (∀ c t, s = c :: t → c ∉ chars) →
  (∀ c t, s = t ++ [c] → c ∉ chars) →
  str_strip chars s = s.
Proof.
  intros Hhead Hlast. unfold str_strip, lstrip_by.
  destruct s as [|c t]; [reflexivity|].
  rewrite drop_while_id.
  - destruct (list_snoc_cases (c :: t)) as [Hnil|(t' & c' & Heq)]; [discriminate|].
    rewrite Heq. apply rstrip_by_id. apply bool_decide_eq_false.
    now apply (Hlast c' t').
  - apply bool_decide_eq_false. now apply (Hhead c t).
Qed.

Lemma str_strip_idempotent (chars s : pystr) :
  str_strip chars (str_strip chars s) = str_strip chars s.
Proof.
  destruct (str_strip_ends chars s) as [Hhead Hlast].
  now apply str_strip_fixed.
Qed.

(** A stripped character after a string that does not end with one is taken
    off again. *)
Lemma str_strip_snoc (chars body : pystr) (x : N) :
  body ≠ [] →
  (∀ c t, body = c :: t → c ∉ chars) →
  (∀ c t, body = t ++ [c] → c ∉ chars) →
  x ∈ chars →
  str_strip chars (body ++ [x]) = body.
Proof.
  intros Hne Hhead Hlast Hx. unfold str_strip, lstrip_by.
  destruct body as [|c t]; [congruence|].
  cbn [app]. rewrite drop_while_id
    by (apply bool_decide_eq_false; now apply (Hhead c t)).
  change (c :: t ++ [x]) with ((c :: t) ++ [x]).
  unfold rstrip_by. rewrite rev_unit. cbn [drop_while].
  rewrite bool_decide_eq_true_2 by exact Hx.
  destruct (list_snoc_cases (c :: t)) as [Hnil|(t' & c' & Heq)]; [discriminate|].
  rewrite Heq, rev_unit, drop_while_id.
  - now rewrite <- rev_unit, rev_involutive.
  - apply bool_decide_eq_false. now apply (Hlast c' t').
Qed.

(** ** Extraction of the text of a subtitle file *)

(** X4. Every line that [text_from_xmlfile] writes is a sentence followed by a
    newline: the sentence is the stripped form of a line of the file that
    does not start with a markup character, it is not empty, and it neither
    starts nor ends with a character of [linestrip_pattern]; so stripping the
    written line as the text-mode counting does gives the sentence back. No
    more lines are written than read. *)
Theorem text_lines_sentences (file_lines : list pystr) :
  Forall (λ out,
    ∃ line body,
      line ∈ file_lines
      ∧ starts_markup line = false
      ∧ body = str_strip linestrip_pattern line
      ∧ out = body ++ [10]
      ∧ body ≠ []
      ∧ (∀ c t, body = c :: t → c ∉ linestrip_pattern)
      ∧ (∀ c t, body = t ++ [c] → c ∉ linestrip_pattern)
      ∧ sentence_key text out = body) (text_lines file_lines)
  ∧ (length (text_lines file_lines) ≤ length file_lines)%nat.
Proof.
  unfold text_lines. induction file_lines as [|line lines [IH IHlen]].
  - split; [constructor|reflexivity].
  - cbn [flat_map]. split.
    + apply Forall_app. split.
      * destruct (starts_markup line) eqn:Hm; [constructor|].
        destruct (str_strip linestrip_pattern line) as [|c t] eqn:Hs; [constructor|].
        constructor; [|constructor].
        destruct (str_strip_ends linestrip_pattern line) as [Hhead Hlast].
        rewrite Hs in Hhead, Hlast.
        exists line, (c :: t). split; [left|]. split; [exact Hm|].
        split; [now rewrite Hs|]. split; [reflexivity|]. split; [discriminate|].
        split; [exact Hhead|]. split; [exact Hlast|].
        unfold sentence_key. rewrite decide_False by discriminate.
        apply str_strip_snoc; try assumption; [discriminate|].
        refine (bool_decide_unpack _ _). vm_compute. exact I.
      * eapply Forall_impl; [exact IH|].
        intros out (l & body & Hl & Hrest). exists l, body.
        split; [now right|exact Hrest].
    + rewrite length_app. cbn [length].
      destruct (starts_markup line); [cbn; lia|].
      destruct (str_strip linestrip_pattern line); cbn; lia.
Qed.

(** ** Word tokens *)

Lemma drop_while_nil_iff {A} (p : A → bool) (s : list A) :
  drop_while p s = [] ↔ forallb p s = true.
Proof.
  induction s as [|x s IH]; cbn [drop_while forallb]; [tauto|].
  destruct (p x); cbn [andb]; [exact IH|]. split; discriminate.
Qed.

Lemma str_strip_nil_iff (chars s : pystr) :
  str_strip chars s = [] ↔ Forall (λ c, c ∈ chars) s.
Proof.
  unfold str_strip, lstrip_by. set (p := λ c, bool_decide (c ∈ chars)).
  assert (Hp : forallb p s = true ↔ Forall (λ c, c ∈ chars) s).
  { induction s as [|x s IH]; cbn [forallb].
    - split; [constructor|reflexivity].
    - rewrite Forall_cons, <- IH, andb_true_iff. unfold p at 1.
      now rewrite bool_decide_eq_true. }
  rewrite <- Hp, <- drop_while_nil_iff. split.
  - intros Hnil.
    destruct (rstrip_by_prefix p (drop_while p s)) as (b & Hb & Hall).
    rewrite Hnil in Hb. cbn [app] in Hb.
    destruct b as [|c b]; [exact Hb|].
    apply drop_while_head in Hb. cbn [forallb] in Hall.
    rewrite Hb in Hall. discriminate Hall.
  - intros ->. reflexivity.
Qed.

Lemma str_strip_length (chars s : pystr) :
  (length (str_strip chars s) ≤ length s)%nat.
Proof.
  unfold str_strip, lstrip_by. set (p := λ c, bool_decide (c ∈ chars)).
  destruct (drop_while_suffix p s) as (a & Ha & _).
  destruct (rstrip_by_prefix p (drop_while p s)) as (b & Hb & _).
  rewrite Ha at 2. rewrite Hb at 2. rewrite !length_app. lia.
Qed.

Lemma ends_possessive_length (token : pystr) :
  ends_possessive token = true → (3 ≤ length token)%nat.
Proof.
  unfold ends_possessive. rewrite <- (length_rev token).
  destruct (rev token) as [|s [|a [|x rest]]]; try discriminate.
  intros _. cbn [length]. lia.
Qed.

(** X5. [create_word_token] fails exactly on a text with a tab, a newline or a
    carriage return. When it returns, the token is empty exactly when every
    character of the text is one of the stripped ones; the token is never
    longer than the text; and for a language outside the two lists it is the
    stripped text. *)
Theorem create_word_token_spec (text : pystr) (lang_id : string) :
  (create_word_token text lang_id = None
   ↔ ∃ c, c ∈ text ∧ (c = 9 ∨ c = 10 ∨ c = 13))
  ∧ (∀ token, create_word_token text lang_id = Some token →
       (token = [] ↔ Forall (λ c, c ∈ token_strip_chars) text)
       ∧ (length token ≤ length text)%nat
       ∧ (lang_id ∉ ["en"; "fr"; "it"; "de"; "es"; "el"]%string →
          lang_id ∉ ["en"; "nl"; "af"]%string →
          token = str_strip token_strip_chars text)).
Proof.
  unfold create_word_token.
  destruct (existsb _ text) eqn:Hbad.
  - split.
    + split; [intros _|reflexivity].
      apply existsb_exists in Hbad as (c & Hc & Hcs). exists c.
      split; [now apply list_elem_of_In|].
      apply orb_prop in Hcs as [Hcs|Hcs]; [apply orb_prop in Hcs as [Hcs|Hcs]|];
        apply N.eqb_eq in Hcs; tauto.
    + discriminate.
  - split.
    + split.
      * destruct (str_strip token_strip_chars text); discriminate.
      * intros (c & Hc & Hcs). exfalso.
        assert (Hex : existsb (λ c, (c =? 9) || (c =? 10) || (c =? 13)) text = true).
        { apply existsb_exists. exists c. split; [now apply list_elem_of_In|].
          destruct Hcs as [-> | [-> | ->]]; reflexivity. }
        congruence.
    + intros token.
      pose proof (str_strip_nil_iff token_strip_chars text) as Hnil.
      pose proof (str_strip_length token_strip_chars text) as Hlen.
      destruct (str_strip token_strip_chars text) as [|c t] eqn:Hs.
      * intros [= <-]. split; [|split]; [tauto|cbn; lia|reflexivity].
      * set (t1 := if decide (lang_id ∈ ["en"; "fr"; "it"; "de"; "es"; "el"]%string)
                   then replace_char 96 39 (replace_char 8217 39 (c :: t))
                   else c :: t).
        assert (Hl1 : length t1 = length (c :: t)).
        { unfold t1, replace_char. destruct (decide _); [|reflexivity].
          now rewrite !length_map. }
        intros [= <-]. split; [|split].
        -- split.
           ++ intros Hempty. exfalso.
              apply (f_equal (@length N)) in Hempty.
              destruct (decide (lang_id ∈ ["en"; "nl"; "af"]%string)).
              ** destruct (ends_possessive t1) eqn:Hposs.
                 --- apply ends_possessive_length in Hposs.
                     rewrite length_take in Hempty. cbn [length] in *. lia.
                 --- rewrite Hl1 in Hempty. discriminate Hempty.
              ** rewrite Hl1 in Hempty. discriminate Hempty.
           ++ intros Hall. apply Hnil in Hall. discriminate Hall.
        -- destruct (decide (lang_id ∈ ["en"; "nl"; "af"]%string)).
           ++ destruct (ends_possessive t1); [rewrite length_take|]; lia.
           ++ lia.
        -- intros H1 H2. unfold t1. now rewrite !decide_False by assumption.
Qed.

Lemma create_word_token_spec_witness :
  create_word_token (py "...word!") "ru" = Some (py "word").
Proof.
  destruct (create_word_token_spec (py "...word!") "ru") as (_ & Htok).
  destruct (Htok (py "word")) as (_ & _ & Hstrip); reflexivity.
Defined.

Lemma split_runs_pieces (sep : N → bool) (cur : pystr) (in_run : bool)
    (s : pystr) :
  Forall (λ c, sep c = false) cur →
  Forall (Forall (λ c, sep c = false)) (split_runs_from sep cur in_run s).
Proof.
  revert cur in_run. induction s as [|c s IH]; intros cur in_run Hcur;
    cbn [split_runs_from].
  - constructor; [|constructor]. rewrite Forall_forall in Hcur |- *.
    intros x Hx. apply Hcur. apply list_elem_of_In. apply in_rev.
    now apply list_elem_of_In.
  - destruct (sep c) eqn:Hc.
    + destruct in_run.
      * apply IH. constructor.
      * constructor; [|apply IH; constructor].
        rewrite Forall_forall in Hcur |- *.
        intros x Hx. apply Hcur. apply list_elem_of_In. apply in_rev.
        now apply list_elem_of_In.
    + apply IH. now constructor.
Qed.

(** X6. When tab, newline and carriage return are not alphanumeric, the regex
    tokenizer never trips the assertion of [create_word_token], and it
    returns no empty token. *)
Theorem regex_tokenizer_tokens `{Externals} (text : pystr) (lang_id : string) :
  isalnum 9 = false → isalnum 10 = false → isalnum 13 = false →
  ∃ tokens, regex_tokenizer text lang_id = Some tokens
            ∧ Forall (λ token, token ≠ []) tokens.
Proof.
  intros H9 H10 H13. unfold regex_tokenizer.
  set (pieces := re_split_runs _ _).
  assert (Hpieces : Forall (Forall (λ c, negb (token_char c) = false)) pieces).
  { apply split_runs_pieces. constructor. }
  assert (Hsome : is_Some (mapM (λ w, create_word_token w lang_id) pieces)).
  { apply mapM_is_Some. eapply Forall_impl; [exact Hpieces|].
    intros w Hw. cbn.
    destruct (create_word_token w lang_id) as [tok|] eqn:Htok; [eauto|].
    exfalso. apply create_word_token_spec in Htok as (c & Hc & Hcs).
    rewrite Forall_forall in Hw. specialize (Hw c Hc).
    apply negb_false_iff in Hw. unfold token_char, is_word in Hw.
    destruct Hcs as [-> | [-> | ->]].
    - rewrite H9 in Hw. discriminate Hw.
    - rewrite H10 in Hw. discriminate Hw.
    - rewrite H13 in Hw. discriminate Hw. }
  destruct Hsome as [tokens Htokens]. rewrite Htokens. cbn.
  eexists. split; [reflexivity|].
  rewrite Forall_forall. now intros x [Hx _]%list_elem_of_filter.
Qed.

Lemma regex_tokenizer_tokens_witness :
  ∃ tokens, @regex_tokenizer reference_externals
              (py "Hello, world. It's John's dog.") "en" = Some tokens
            ∧ Forall (λ token, token ≠ []) tokens.
Proof.
  apply (@regex_tokenizer_tokens reference_externals
           (py "Hello, world. It's John's dog.") "en"); reflexivity.
Defined.

(** ** The tokenizer of a chunk *)

Lemma str_split_nonempty (sep : N) (s : pystr) : str_split sep s ≠ [].
Proof.
  destruct s as [|c s]; cbn [str_split]; [discriminate|].
  destruct (c =? sep); [discriminate|]. destruct (str_split sep s); discriminate.
Qed.

(** [sep.join(s.split(sep))] is [s]. *)
Lemma str_join_split (sep : N) (s : pystr) :
  str_join [sep] (str_split sep s) = s.
Proof.
  induction s as [|c s IH]; [reflexivity|].
  cbn [str_split]. destruct (N.eqb_spec c sep) as [->|Hc].
  - rewrite str_join_cons by apply str_split_nonempty. now rewrite IH.
  - pose proof (str_split_nonempty sep s) as Hne.
    destruct (str_split sep s) as [|w ws]; [congruence|].
    destruct ws as [|w' ws].
    + cbn [str_join] in *. now rewrite IH.
    + rewrite str_join_cons in IH |- * by discriminate.
      rewrite <- IH. reflexivity.
Qed.

Lemma mapM_app {A B} (f : A → option B) (l1 l2 : list A) :
  mapM f (l1 ++ l2) = k1 ← mapM f l1; k2 ← mapM f l2; Some (k1 ++ k2).
Proof.
  induction l1 as [|x l1 IH]; cbn [app mapM].
  - cbn. now destruct (mapM f l2).
  - destruct (f x) as [y|]; [|reflexivity]. cbn. rewrite IH.
    destruct (mapM f l1) as [k1|]; [|reflexivity]. cbn.
    now destruct (mapM f l2).
Qed.

(** A function on lists that distributes over concatenation gives the same
    result on the whole list as on its batches, put together. *)
Lemma mapM_batched_additive {A B} (f : list A → option (list B)) (n : nat)
    (l : list A) :
  (0 < n)%nat →
  f [] = Some [] →
  (∀ l1 l2, f (l1 ++ l2) = k1 ← f l1; k2 ← f l2; Some (k1 ++ k2)) →
  (dt ← mapM f (batched l n); Some (concat dt)) = f l.
Proof.
  intros Hn Hnil Happ. destruct n as [|n]; [lia|].
  induction l as [|x l IH] using (batched_ind A n).
  - rewrite batched_nil. cbn. now rewrite Hnil.
  - rewrite batched_cons. cbn [mapM].
    replace (f (x :: l))
      with (f (take (S n) (x :: l) ++ drop (S n) (x :: l)))
      by now rewrite take_drop.
    rewrite Happ, <- IH.
    destruct (f (take (S n) (x :: l))) as [k1|]; [|reflexivity].
    destruct (mapM f (batched (drop (S n) (x :: l)) (S n))); reflexivity.
Qed.

Section TokenizerFacts.
Context `{Externals} (env : tokenizer_env) (cfg : settings).

Lemma tokenize_lines_app (langcode : string) (l1 l2 : list pystr) :
  Tokenizer.line_tokenizer env langcode →
  Tokenizer.tokenize_lines env (l1 ++ l2) langcode
  = k1 ← Tokenizer.tokenize_lines env l1 langcode;
    k2 ← Tokenizer.tokenize_lines env l2 langcode;
    Some (k1 ++ k2).
Proof.
  unfold Tokenizer.line_tokenizer, Tokenizer.tokenize_lines. intros Hline.
  destruct (decide (corpus_data_type env = tokenized)) as [Htok|Htok].
  - destruct (decide (corpus_data_type env = text)); cbn;
      now rewrite ?map_app.
  - destruct Hline as [?|Hline]; [contradiction|]. rewrite Hline.
    destruct (decide (corpus_data_type env = text)).
    + rewrite map_app. apply mapM_app.
    + apply mapM_app.
Qed.

Lemma tokenize_lines_nil (langcode : string) :
  Tokenizer.line_tokenizer env langcode →
  Tokenizer.tokenize_lines env [] langcode = Some [].
Proof.
  unfold Tokenizer.line_tokenizer, Tokenizer.tokenize_lines. intros Hline.
  destruct (decide (corpus_data_type env = tokenized)) as [Htok|Htok].
  - now destruct (decide (corpus_data_type env = text)).
  - destruct Hline as [?|Hline]; [contradiction|]. rewrite Hline.
    now destruct (decide (corpus_data_type env = text)).
Qed.

Lemma mapM_bind_fmap {A B C} (g : A → option B) (h : B → C) (l : list A) :
  mapM (λ x, y ← g x; Some (h y)) l = k ← mapM g l; Some (map h k).
Proof.
  induction l as [|x l IH]; [reflexivity|]. cbn [mapM].
  destruct (g x) as [y|]; [|reflexivity]. cbn. rewrite IH.
  now destruct (mapM g l).
Qed.

Lemma concat_map_concat {A} (l : list (list (list A))) :
  concat (map (@concat A) l) = concat (concat l).
Proof.
  induction l as [|x l IH]; [reflexivity|].
  cbn [map concat]. now rewrite concat_app, IH.
Qed.

Lemma flat_tokens_app (langcode : string) (l1 l2 : list pystr) :
  Tokenizer.line_tokenizer env langcode →
  Tokenizer.flat_tokens env langcode (l1 ++ l2)
  = k1 ← Tokenizer.flat_tokens env langcode l1;
    k2 ← Tokenizer.flat_tokens env langcode l2;
    Some (k1 ++ k2).
Proof.
  intros Hline. unfold Tokenizer.flat_tokens. rewrite tokenize_lines_app by exact Hline.
  destruct (Tokenizer.tokenize_lines env l1 langcode) as [k1|]; [|reflexivity].
  destruct (Tokenizer.tokenize_lines env l2 langcode) as [k2|]; [|reflexivity].
  cbn. now rewrite concat_app.
Qed.

Lemma tokenize_lines_mp_flat (langcode : string) (lines : list pystr) :
  n_process env ≠ 0 →
  Tokenizer.tokenize_lines_mp env cfg lines langcode
  = dt ← mapM (Tokenizer.flat_tokens env langcode)
           (batched lines (Tokenizer.sub_batch_size env cfg));
    Some (concat dt).
Proof.
  intros Hproc. unfold Tokenizer.tokenize_lines_mp, Tokenizer.flat_tokens.
  rewrite decide_False by exact Hproc.
  rewrite mapM_bind_fmap.
  destruct (mapM _ (batched lines _)) as [dt|]; [|reflexivity].
  cbn. now rewrite concat_map_concat.
Qed.

End TokenizerFacts.

(** X7. On a pre-tokenized corpus [tokenize_lines] gives one token list per line,
    never an empty one, and joining the tokens of a line with single spaces
    gives the stripped line back. *)
Theorem tokenized_lines_roundtrip `{Externals} (env : tokenizer_env)
    (lines : list pystr) (langcode : string) :
  corpus_data_type env = tokenized →
  ∃ dt, Tokenizer.tokenize_lines env lines langcode = Some dt
        ∧ map (str_join space) dt = map (str_strip linestrip_pattern) lines
        ∧ Forall (λ tokens, tokens ≠ []) dt.
Proof.
  intros Htok. unfold Tokenizer.tokenize_lines.
  rewrite (decide_False (P := corpus_data_type env = text)) by congruence.
  rewrite decide_True by exact Htok.
  eexists. split; [reflexivity|]. split.
  - rewrite map_map. apply map_ext. intros l. apply str_join_split.
  - apply Forall_fmap, Forall_forall. intros l _. apply str_split_nonempty.
Qed.

Lemma tokenized_lines_roundtrip_witness :
  let env := {| use_regex_tokenizer := false; corpus_data_type := tokenized;
                n_process := 6; nlp_pipe := λ _ _, [] |} in
  @Tokenizer.tokenize_lines reference_externals env [py " a b  c" ++ [10]] "en"
  = Some [[py "a"; py "b"; []; py "c"]].
Proof.
  intros env.
  destruct (@tokenized_lines_roundtrip reference_externals env
              [py " a b  c" ++ [10]] "en") as (dt & Hdt & _).
  - reflexivity.
  - reflexivity.
Defined.

(** X8. When [lines_per_chunk] is below 25 times [n_process], the sub-batch size
    is zero and [tokenize_lines_mp] returns no token and raises nothing,
    whatever the lines. *)
Theorem tokenize_lines_mp_small_chunk `{Externals} (env : tokenizer_env)
    (cfg : settings) (lines : list pystr) (langcode : string) :
  lines_per_chunk cfg < n_process env * 25 →
  Tokenizer.tokenize_lines_mp env cfg lines langcode = Some [].
Proof.
  intros Hsmall. unfold Tokenizer.tokenize_lines_mp, Tokenizer.sub_batch_size.
  rewrite decide_False by lia.
  rewrite N.div_small by exact Hsmall.
  change (N.to_nat 0) with 0%nat. rewrite batched_eq, take_0. reflexivity.
Qed.

Lemma tokenize_lines_mp_small_chunk_witness :
  let env := {| use_regex_tokenizer := true; corpus_data_type := raw;
                n_process := 6; nlp_pipe := λ _ _, [] |} in
  let cfg := {| min_count := Some 5; lines_per_chunk := 149;
                lowcase_cutoff := 0.5; n_top_sentences := 2; n_top_words := 3 |} in
  @Tokenizer.tokenize_lines_mp reference_externals env cfg
    [py "a b"; py "c"] "en" = Some [].
Proof.
  intros env cfg.
  apply (@tokenize_lines_mp_small_chunk reference_externals env cfg).
  reflexivity.
Defined.

(** X9. With a line-by-line tokenizer and a sub-batch size that is not zero, the
    tokens of a chunk are the tokens of its lines in order, so the token
    stream of a corpus read in chunks of any positive size is the token stream
    of the corpus read at once. *)
Theorem tokenize_lines_mp_chunk_invariant `{Externals} (env : tokenizer_env)
    (cfg : settings) (lines : list pystr) (langcode : string) :
  Tokenizer.line_tokenizer env langcode →
  0 < n_process env →
  n_process env * 25 ≤ lines_per_chunk cfg →
  Tokenizer.tokenize_lines_mp env cfg lines langcode
  = (dt ← Tokenizer.tokenize_lines env lines langcode; Some (concat dt))
  ∧ (∀ n, 0 < n →
       (toks ← mapM (λ chunk, Tokenizer.tokenize_lines_mp env cfg chunk langcode)
                 (chunked_reader lines n);
        Some (concat toks))
       = Tokenizer.tokenize_lines_mp env cfg lines langcode).
Proof.
  intros Hline Hproc Hsize.
  assert (Hbatch : (0 < Tokenizer.sub_batch_size env cfg)%nat).
  { unfold Tokenizer.sub_batch_size.
    assert (0 < lines_per_chunk cfg / (n_process env * 25)); [|lia].
    apply N.div_str_pos. lia. }
  assert (Hmp : ∀ l, Tokenizer.tokenize_lines_mp env cfg l langcode
                     = Tokenizer.flat_tokens env langcode l).
  { intros l. rewrite tokenize_lines_mp_flat by lia.
    apply mapM_batched_additive; [exact Hbatch| |].
    - unfold Tokenizer.flat_tokens. now rewrite tokenize_lines_nil.
    - intros l1 l2. now apply flat_tokens_app. }
  split; [apply Hmp|].
  intros n Hn. rewrite Hmp.
  rewrite (mapM_ext _ (Tokenizer.flat_tokens env langcode)) by exact Hmp.
  unfold chunked_reader. apply mapM_batched_additive; [lia| |].
  - unfold Tokenizer.flat_tokens. now rewrite tokenize_lines_nil.
  - intros l1 l2. now apply flat_tokens_app.
Qed.

Lemma tokenize_lines_mp_chunk_invariant_witness :
  let env := {| use_regex_tokenizer := true; corpus_data_type := raw;
                n_process := 1; nlp_pipe := λ _ _, [] |} in
  let cfg := {| min_count := Some 5; lines_per_chunk := 25;
                lowcase_cutoff := 0.5; n_top_sentences := 2; n_top_words := 3 |} in
  @Tokenizer.tokenize_lines_mp reference_externals env cfg
    [py "a b."; py "c's"] "en"
  = Some [py "a"; py "b"; py "c"].
Proof.
  intros env cfg.
  destruct (@tokenize_lines_mp_chunk_invariant reference_externals env cfg
              [py "a b."; py "c's"] "en") as (Hflat & _).
  - right. reflexivity.
  - reflexivity.
  - intros Hgt. discriminate Hgt.
  - rewrite Hflat. reflexivity.
Defined.

(** X10. For a language whose normalized code is zh, ja, th, lo or km, and a
    corpus that is not pre-tokenized, [tokenize_lines] goes through spaCy
    whatever [use_regex_tokenizer] says: the lines are joined into super-lines
    of 5000 characters, and of each document the tokens that are not
    punctuation are kept, stripped of hyphens. *)
Theorem tokenize_lines_always_spacy `{Externals} (env : tokenizer_env)
    (lines : list pystr) (langcode : string) :
  normalized_langcode langcode ∈ ["zh"; "ja"; "th"; "lo"; "km"]%string →
  corpus_data_type env ≠ tokenized →
  let lines' := if decide (corpus_data_type env = text)
                then map (str_strip linestrip_pattern) lines else lines in
  Tokenizer.tokenize_lines env lines langcode
  = Some (map (λ doc, map (λ w, str_strip [45] w.1)
                        (List.filter (λ w, negb w.2) doc))
            (nlp_pipe env langcode (join_to_min_length lines' 5000))).
Proof.
  intros Hlang Htok lines'. subst lines'. unfold Tokenizer.tokenize_lines.
  rewrite (decide_False (P := corpus_data_type env = tokenized)) by exact Htok.
  rewrite decide_True by exact Hlang.
  assert (Hspacy : bool_decide (normalized_langcode langcode ∈ langs_not_in_spacy)
                   = false).
  { apply bool_decide_eq_false. intros Hin.
    repeat (apply elem_of_cons in Hlang as [Hlang|Hlang];
            [rewrite Hlang in Hin; revert Hin;
             refine (bool_decide_unpack _ _); vm_compute; exact I|]).
    now apply not_elem_of_nil in Hlang. }
  rewrite Hspacy. reflexivity.
Qed.

Lemma tokenize_lines_always_spacy_witness :
  let env := {| use_regex_tokenizer := true; corpus_data_type := raw;
                n_process := 6;
                nlp_pipe := λ _ texts,
                  map (λ t, map (λ w, (w, false)) (str_split 32 t)) texts |} in
  @Tokenizer.tokenize_lines reference_externals env [py "a b"; py "c"] "zh_cn"
  = Some [[py "a"; py "b"; py "c"]].
Proof.
  intros env.
  rewrite (@tokenize_lines_always_spacy reference_externals env
             [py "a b"; py "c"] "zh_cn").
  - reflexivity.
  - refine (bool_decide_unpack _ _). vm_compute. exact I.
  - discriminate.
Defined.

(** ** What the ranked tables look like *)

Lemma sum_values_elem_le (r : row) (d : counter) :
  r ∈ d → r.2 ≤ sum_values d.
Proof.
  induction d as [|r' d IH]; [now intros ?%not_elem_of_nil|].
  rewrite sum_values_cons. intros [->|Hin]%elem_of_cons; [lia|].
  specialize (IH Hin). lia.
Qed.

Lemma dict_set_elem (k : pystr) (v : N) (d : counter) (r : row) :
  r ∈ dict_set k v d → r = (k, v) ∨ r ∈ d.
Proof.
  induction d as [|[k' v'] d IH]; cbn [dict_set].
  - intros ->%list_elem_of_singleton. now left.
  - destruct (decide (k' = k)) as [->|Hne].
    + intros [->|Hin]%elem_of_cons; [now left|right; now right].
    + intros [->|Hin]%elem_of_cons; [right; left|].
      destruct (IH Hin); [now left|right; now right].
Qed.

(** Every count of the stripped table is a count of the table. *)
Lemma strip_keys_values (d : counter) (r : row) :
  r ∈ strip_keys d → ∃ k, (k, r.2) ∈ d.
Proof.
  unfold strip_keys.
  assert (Hgen : ∀ acc, r ∈ foldl (λ acc kv, dict_set (str_strip_ws kv.1) kv.2 acc) acc d →
                        r ∈ acc ∨ ∃ k, (k, r.2) ∈ d).
  { induction d as [|[k v] d IH]; intros acc; cbn [foldl]; [now left|].
    intros [Hin|(k' & Hk')]%IH.
    - apply dict_set_elem in Hin as [->|Hin]; [|now left].
      right. exists k. left.
    - right. exists k'. now right. }
  intros [Hin|Hex]%Hgen; [now apply not_elem_of_nil in Hin|exact Hex].
Qed.

Lemma apply_min_count_values (min_count : option N) (d : counter) (r : row) :
  r ∈ apply_min_count min_count d → r ∈ d ∧ default 0 min_count ≤ r.2.
Proof.
  destruct min_count as [m|]; cbn [apply_min_count default from_option id].
  - destruct (decide (m = 0)) as [->|Hm].
    + intros Hin. split; [exact Hin|lia].
    + now intros [? ?]%list_elem_of_filter.
  - intros Hin. split; [exact Hin|lia].
Qed.

Lemma Sorted_count_ge_filter (P : row → Prop) `{!∀ r, Decision (P r)}
    (df : dataframe) :
  Sorted count_ge df → Sorted count_ge (filter P df).
Proof.
  intros Hs. apply StronglySorted_Sorted, StronglySorted_filter.
  apply Sorted_StronglySorted; [apply count_ge_trans|exact Hs].
Qed.

Lemma Sorted_count_ge_take (n : nat) (df : dataframe) :
  Sorted count_ge df → Sorted count_ge (take n df).
Proof.
  intros Hs. apply StronglySorted_Sorted.
  apply Sorted_StronglySorted in Hs; [|apply count_ge_trans].
  rewrite <- (take_drop n df) in Hs. now apply StronglySorted_app_1_l in Hs.
Qed.

Lemma NoDup_map_filter {A B} (f : A → B) (P : A → Prop)
    `{!∀ x, Decision (P x)} (l : list A) :
  NoDup (map f l) → NoDup (map f (filter P l)).
Proof.
  induction l as [|x l IH]; [intros _; constructor|].
  cbn [map]. intros [Hx Hl]%NoDup_cons.
  rewrite filter_cons. destruct (decide (P x)); [|now apply IH].
  cbn [map]. apply NoDup_cons. split; [|now apply IH].
  intros Hin. apply Hx. apply list_elem_of_In, in_map_iff.
  apply list_elem_of_In, in_map_iff in Hin as (y & Hy & Hin).
  exists y. split; [exact Hy|].
  apply list_elem_of_In. apply list_elem_of_In in Hin.
  now apply list_elem_of_filter in Hin as [_ ?].
Qed.

Lemma NoDup_map_take {A B} (f : A → B) (n : nat) (l : list A) :
  NoDup (map f l) → NoDup (map f (take n l)).
Proof.
  intros Hl. rewrite <- (take_drop n l), map_app in Hl.
  now apply NoDup_app in Hl as [? _].
Qed.

Section RankedTables.
Context `{Externals} `{!SortValuesSpec}.

(** After a collapse no two rows belong to the same group. *)
Lemma collapse_keys_NoDup (agg : pystr * dataframe → row) (key : pystr → pystr)
    (pre : dataframe) :
  agg_picks_member agg →
  NoDup (map (key ∘ fst) (sort_values (map agg (groupby key pre)))).
Proof.
  intros Hpick.
  assert (Hperm : map (key ∘ fst) (sort_values (map agg (groupby key pre)))
                  ≡ₚ map (key ∘ fst) (map agg (groupby key pre))).
  { apply Permutation_map, sort_values_perm. }
  rewrite Hperm.
  assert (Hkeys : map (key ∘ fst) (map agg (groupby key pre))
                  = group_keys (map (key ∘ fst) pre)).
  { unfold groupby. rewrite !map_map.
    assert (Hall : ∀ g, g ∈ group_keys (map (key ∘ fst) pre) →
                        g ∈ map (key ∘ fst) pre).
    { intros g. apply elem_of_group_keys. }
    induction (group_keys (map (key ∘ fst) pre)) as [|g ks IH]; [reflexivity|].
    cbn [map]. rewrite IH by (intros g' Hg'; apply Hall; now right). f_equal.
    assert (Hg : g ∈ map (key ∘ fst) pre) by (apply Hall; left).
    apply list_elem_of_In, in_map_iff in Hg as (r & Hr & Hin%list_elem_of_In).
    assert (Hne : filter (λ r : row, key r.1 = g) pre ≠ []).
    { intros Hnil. eapply not_elem_of_nil. rewrite <- Hnil.
      apply list_elem_of_filter. split; [exact Hr|exact Hin]. }
    destruct (Hpick g _ Hne) as (r' & [Hkr' _]%list_elem_of_filter & Hname).
    cbn [compose]. now rewrite Hname. }
  rewrite Hkeys. apply group_keys_NoDup.
Qed.

Lemma sum_values_filter_le (P : row → Prop) `{!∀ r, Decision (P r)}
    (df : dataframe) :
  sum_values (filter P df) ≤ sum_values df.
Proof.
  pose proof (sum_values_filter_split P df). lia.
Qed.

Lemma sum_values_take_le (n : nat) (df : dataframe) :
  sum_values (take n df) ≤ sum_values df.
Proof.
  rewrite <- (take_drop n df) at 2. rewrite sum_values_app. lia.
Qed.

Lemma sum_values_dict_set (k : pystr) (v : N) (d : counter) :
  sum_values (dict_set k v d) ≤ sum_values d + v.
Proof.
  induction d as [|[k' v'] d IH]; cbn [dict_set].
  - rewrite sum_values_cons. cbn. lia.
  - destruct (decide (k' = k)); rewrite !sum_values_cons; cbn [snd]; lia.
Qed.

Lemma sum_values_strip_keys (d : counter) :
  sum_values (strip_keys d) ≤ sum_values d.
Proof.
  unfold strip_keys.
  assert (Hgen : ∀ acc,
            sum_values (foldl (λ acc kv, dict_set (str_strip_ws kv.1) kv.2 acc) acc d)
            ≤ sum_values acc + sum_values d).
  { induction d as [|[k v] d IH]; intros acc; cbn [foldl].
    - cbn. lia.
    - specialize (IH (dict_set (str_strip_ws k) v acc)).
      pose proof (sum_values_dict_set (str_strip_ws k) v acc).
      rewrite sum_values_cons. cbn [fst snd] in *. lia. }
  specialize (Hgen []). cbn in Hgen. exact Hgen.
Qed.

Lemma sum_values_min_count (min_count : option N) (d : counter) :
  sum_values (apply_min_count min_count d) ≤ sum_values d.
Proof.
  destruct min_count as [m|]; cbn [apply_min_count]; [|lia].
  destruct (decide (m = 0)); [lia|]. apply sum_values_filter_le.
Qed.

(** The counts that reach the collapser are at least the floor. *)
Lemma ranked_input_values (min_count : option N) (strip : bool) (d : counter)
    (r : row) :
  r ∈ most_common (if strip then strip_keys (apply_min_count min_count d)
                   else apply_min_count min_count d) →
  default 0 min_count ≤ r.2.
Proof.
  rewrite most_common_perm. destruct strip.
  - intros (k & Hk)%strip_keys_values.
    now apply apply_min_count_values in Hk as [_ ?].
  - now intros [_ ?]%apply_min_count_values.
Qed.

(** A row of a collapsed table counts at least as much as the row it is named
    after. *)
Lemma collapsed_row_ge (df : dataframe) (key : pystr → pystr) (out : dataframe)
    (floor : N) :
  collapsed_from df key out →
  (∀ r, r ∈ df → floor ≤ r.2) →
  ∀ w c, (w, c) ∈ out → floor ≤ c.
Proof.
  intros (_ & Hrows & _) Hfloor w c Hin.
  destruct (Hrows w c Hin) as [Hw ->].
  apply list_elem_of_fmap in Hw as ([w' n] & -> & Hr).
  assert (Hmem : (w', n) ∈ filter (λ r : row, key r.1 = key (w', n).1) df).
  { apply list_elem_of_filter. split; [reflexivity|exact Hr]. }
  apply sum_values_elem_le in Hmem. specialize (Hfloor _ Hr).
  cbn [fst snd] in *. lia.
Qed.

End RankedTables.

(** X11. The table that the sentence pipeline writes, whatever the counter it is
    made from: at most [n_top_sentences] rows, in descending order of count;
    no two rows differ only in their endings; no row is an excluded sentence;
    every count is at least the floor [min_count]; and the counts add up to no
    more than the counter held. *)
Theorem rank_sentences_table `{Externals} `{!SortValuesSpec} (cfg : settings)
    (sdt : source_data_type) (excluded : option (list pystr)) (d : counter) :
  let out := rank_sentences cfg sdt excluded d in
  (length out ≤ N.to_nat (n_top_sentences cfg))%nat
  ∧ Sorted count_ge out
  ∧ NoDup (map (str_strip sentence_endings ∘ fst) out)
  ∧ (∀ w c, (w, c) ∈ out →
       default 0 (min_count cfg) ≤ c
       ∧ ∀ l, excluded = Some l → w ∉ l)
  ∧ sum_values out ≤ sum_values d.
Proof.
  intros out. subst out. unfold rank_sentences, head.
  set (df := most_common _).
  assert (Hdf : ∀ r, r ∈ df → default 0 (min_count cfg) ≤ r.2).
  { intros r Hr. subst df.
    apply (ranked_input_values (min_count cfg)
             (bool_decide (sdt = raw)) d r).
    now destruct (decide (sdt = raw));
      [rewrite bool_decide_eq_true_2|rewrite bool_decide_eq_false_2]. }
  assert (Hcol : collapsed_from df (str_strip sentence_endings)
                   (collapse_if_only_ending_differently df)).
  { apply collapse_generic.
    - apply agg_first_sum_sums.
    - apply agg_first_sum_picks.
    - apply sort_values_perm. }
  assert (Hex : ∀ r, r ∈ exclude_sentences excluded
                           (collapse_if_only_ending_differently df) →
                     r ∈ collapse_if_only_ending_differently df
                     ∧ ∀ l, excluded = Some l → r.1 ∉ l).
  { intros r. destruct excluded as [l|]; cbn [exclude_sentences].
    - intros [Hr Hin]%list_elem_of_filter. split; [exact Hin|].
      now intros l' [= <-].
    - intros Hin. split; [exact Hin|discriminate]. }
  split; [|split; [|split; [|split]]].
  - rewrite length_take. lia.
  - apply Sorted_count_ge_take.
    destruct excluded as [l|]; cbn [exclude_sentences].
    + apply Sorted_count_ge_filter. apply Hcol.
    + apply Hcol.
  - apply NoDup_map_take.
    assert (Hnd : NoDup (map (str_strip sentence_endings ∘ fst)
                           (collapse_if_only_ending_differently df))).
    { apply collapse_keys_NoDup, agg_first_sum_picks. }
    destruct excluded as [l|]; cbn [exclude_sentences]; [|exact Hnd].
    now apply NoDup_map_filter.
  - intros w c Hin. apply elem_of_take in Hin as (i & Hin & _).
    apply list_elem_of_lookup_2 in Hin. apply Hex in Hin as [Hin Hnot].
    split; [|exact Hnot].
    now apply (collapsed_row_ge df _ _ _ Hcol Hdf w c).
  - etransitivity; [apply sum_values_take_le|].
    etransitivity.
    { destruct excluded as [l|]; cbn [exclude_sentences];
        [apply sum_values_filter_le|reflexivity]. }
    destruct Hcol as (-> & _). subst df.
    rewrite (sum_values_perm _ _ (most_common_perm _)).
    destruct (decide (sdt = raw)).
    + etransitivity; [apply sum_values_strip_keys|apply sum_values_min_count].
    + apply sum_values_min_count.
Qed.

Lemma rank_sentences_table_witness :
  let cfg := {| min_count := Some 2; lines_per_chunk := 10;
                lowcase_cutoff := 0.5; n_top_sentences := 2; n_top_words := 3 |} in
  let out := @rank_sentences reference_externals cfg raw (Some [py "Yo"])
               [(py "Hi." ++ [10], 4); (py "Yo" ++ [10], 9);
                (py "Hi!" ++ [10], 3); (py "Oh" ++ [10], 1)] in
  Sorted count_ge out ∧ out = [(py "Hi.", 7)].
Proof.
  intros cfg out. split.
  - apply (@rank_sentences_table reference_externals reference_sort_values
             cfg raw (Some [py "Yo"])).
  - vm_compute. reflexivity.
Defined.

(** X12. The table that the word pipeline writes, whatever the counter it is made
    from: at most [n_top_words] rows, in descending order of count; no two
    rows are the same word up to case; every count is at least the floor
    [min_count]; and the counts add up to no more than the counter held. *)
Theorem rank_words_table `{Externals} `{!SortValuesSpec} (cfg : settings)
    (d : counter) :
  let out := rank_words cfg d in
  (length out ≤ N.to_nat (n_top_words cfg))%nat
  ∧ Sorted count_ge out
  ∧ NoDup (map (str_lower ∘ fst) out)
  ∧ (∀ w c, (w, c) ∈ out → default 0 (min_count cfg) ≤ c)
  ∧ sum_values out ≤ sum_values d.
Proof.
  intros out. subst out. unfold rank_words, head.
  set (df := most_common _).
  assert (Hdf : ∀ r, r ∈ df → default 0 (min_count cfg) ≤ r.2).
  { intros r Hr. subst df.
    now apply (ranked_input_values (min_count cfg) false d r). }
  assert (Hcol : collapsed_from df str_lower (collapse_case df (lowcase_cutoff cfg))
                 ∧ NoDup (map (str_lower ∘ fst)
                            (collapse_case df (lowcase_cutoff cfg)))).
  { unfold collapse_case. destruct (PrimFloat.eqb _ _).
    - split.
      + apply collapse_generic.
        * apply agg_first_sum_sums.
        * apply agg_first_sum_picks.
        * apply sort_values_perm.
      + apply collapse_keys_NoDup, agg_first_sum_picks.
    - split.
      + apply collapse_generic.
        * apply wordcase_by_cutoff_sums.
        * apply wordcase_by_cutoff_picks.
        * reflexivity.
      + apply collapse_keys_NoDup, wordcase_by_cutoff_picks. }
  destruct Hcol as [Hcol Hnd].
  split; [|split; [|split; [|split]]].
  - rewrite length_take. lia.
  - apply Sorted_count_ge_take, Hcol.
  - now apply NoDup_map_take.
  - intros w c Hin. apply elem_of_take in Hin as (i & Hin & _).
    apply list_elem_of_lookup_2 in Hin.
    now apply (collapsed_row_ge df _ _ _ Hcol Hdf w c).
  - etransitivity; [apply sum_values_take_le|].
    destruct Hcol as (-> & _). subst df.
    rewrite (sum_values_perm _ _ (most_common_perm _)).
    apply sum_values_min_count.
Qed.

Lemma rank_words_table_witness :
  let cfg := {| min_count := Some 2; lines_per_chunk := 10;
                lowcase_cutoff := cutoff_0_2; n_top_sentences := 2;
                n_top_words := 3 |} in
  let out := @rank_words reference_externals cfg
               [(py "The", 6); (py "the", 4); (py "Bob", 3); (py "x", 1)] in
  Sorted count_ge out ∧ out = [(py "the", 10); (py "Bob", 3)].
Proof.
  intros cfg out. split.
  - apply (@rank_words_table reference_externals reference_sort_values cfg).
  - vm_compute. reflexivity.
Defined.

(** ** Stripping the keys of the raw counter *)

Lemma dict_set_keys (k : pystr) (v : N) (d : counter) :
  (dict_set k v d).*1 = if decide (k ∈ d.*1) then d.*1 else d.*1 ++ [k].
Proof.
  induction d as [|[k' v'] d IH]; cbn [dict_set fmap list_fmap fst].
  - rewrite decide_False; [reflexivity|]. apply not_elem_of_nil.
  - destruct (decide (k' = k)) as [->|Hne]; cbn [fmap list_fmap fst].
    + rewrite decide_True; [reflexivity|]. apply elem_of_cons. now left.
    + change (list_fmap _ _ fst) with (fmap (M:=list) (@fst pystr N)).
      rewrite IH. destruct (decide (k ∈ d.*1)) as [Hin|Hout].
      * rewrite decide_True; [reflexivity|]. apply elem_of_cons. now right.
      * rewrite decide_False; [reflexivity|].
        rewrite elem_of_cons. intros [->|?]; tauto.
Qed.

Lemma dict_set_new (k : pystr) (v : N) (d : counter) :
  k ∉ d.*1 → dict_set k v d = d ++ [(k, v)].
Proof.
  induction d as [|[k' v'] d IH]; [reflexivity|].
  cbn [fmap list_fmap fst dict_set app]. rewrite not_elem_of_cons.
  intros [Hne Hd]. rewrite decide_False by congruence. now rewrite IH.
Qed.

Lemma counter_get_dict_set (k : pystr) (v : N) (d : counter) :
  counter_get k (dict_set k v d) = Some v.
Proof.
  induction d as [|[k' v'] d IH]; cbn [dict_set counter_get].
  - now rewrite decide_True.
  - destruct (decide (k' = k)) as [->|Hne]; cbn [counter_get].
    + now rewrite decide_True.
    + now rewrite decide_False.
Qed.

Lemma strip_keys_snoc (d : counter) (k : pystr) (v : N) :
  strip_keys (d ++ [(k, v)]) = dict_set (str_strip_ws k) v (strip_keys d).
Proof. unfold strip_keys. now rewrite foldl_app. Qed.

(** X13. The keys of the stripped counter are unique and its counts never add up
    to more than before. When no two keys strip to the same string, each key
    is replaced by its stripped form and keeps its count; when several do,
    the last of them gives the count, and the counts of the others are lost. *)
Theorem strip_keys_counts (d : counter) :
  NoDup (strip_keys d).*1
  ∧ sum_values (strip_keys d) ≤ sum_values d
  ∧ (NoDup (map (str_strip_ws ∘ fst) d) →
     strip_keys d = map (λ kv : row, (str_strip_ws kv.1, kv.2)) d)
  ∧ (∀ d' k v, d = d' ++ [(k, v)] →
       counter_get (str_strip_ws k) (strip_keys d) = Some v).
Proof.
  split; [|split; [apply sum_values_strip_keys|split]].
  - unfold strip_keys.
    assert (Hgen : ∀ acc, NoDup acc.*1 →
              NoDup (foldl (λ acc kv, dict_set (str_strip_ws kv.1) kv.2 acc) acc d).*1).
    { induction d as [|[k v] d IH]; intros acc Hacc; [exact Hacc|].
      cbn [foldl]. apply IH. rewrite dict_set_keys.
      destruct (decide (str_strip_ws (k, v).1 ∈ acc.*1)) as [Hin|Hout]; [exact Hacc|].
      apply NoDup_app. split; [exact Hacc|]. split.
      - intros x Hx ->%list_elem_of_singleton. contradiction.
      - apply NoDup_singleton. }
    apply Hgen. constructor.
  - unfold strip_keys.
    assert (Hgen : ∀ acc,
              NoDup (acc.*1 ++ map (str_strip_ws ∘ fst) d) →
              foldl (λ acc kv, dict_set (str_strip_ws kv.1) kv.2 acc) acc d
              = acc ++ map (λ kv : row, (str_strip_ws kv.1, kv.2)) d).
    { induction d as [|[k v] d IH]; intros acc Hnd; cbn [foldl map].
      - now rewrite app_nil_r.
      - cbn [map compose fst] in Hnd.
        rewrite dict_set_new.
        + rewrite IH.
          * now rewrite <- app_assoc.
          * rewrite fmap_app. cbn [fmap list_fmap fst].
            rewrite <- app_assoc. exact Hnd.
        + cbn [fst]. apply NoDup_app in Hnd as (_ & Hdisj & _).
          intros Hin. apply (Hdisj _ Hin). left. }
    intros Hnd. apply (Hgen []). exact Hnd.
  - intros d' k v ->. rewrite strip_keys_snoc. apply counter_get_dict_set.
Qed.

Lemma strip_keys_counts_witness :
  strip_keys [(py "a" ++ [10], 3); (py "b" ++ [10], 2)]
  = [(py "a", 3); (py "b", 2)]
  ∧ strip_keys [(py "a" ++ [10], 3); (py "a" ++ [160; 10], 2)] = [(py "a", 2)].
Proof.
  split.
  - destruct (strip_keys_counts [(py "a" ++ [10], 3); (py "b" ++ [10], 2)])
      as (_ & _ & Hmap & _).
    rewrite Hmap; [reflexivity|].
    refine (bool_decide_unpack _ _). vm_compute. exact I.
  - reflexivity.
Defined.

(** ** Runs of the two pipelines *)

(** X14. Without the corpus file both pipelines raise [FileNotFoundError] for it,
    and write neither a table nor a total. *)
Theorem missing_corpus_raises `{Externals} (cfg : settings)
    (parsedfile outfile langcode : string) (sdt : source_data_type) (w : world) :
  text_files w !! parsedfile = None →
  let rs := parsedfile_to_top_sentences cfg parsedfile outfile langcode sdt w in
  let rw := parsedfile_to_top_words cfg parsedfile outfile langcode sdt w in
  (rs.2 = inl (FileNotFoundError parsedfile)
   ∧ csv_files rs.1 = csv_files w
   ∧ total_counts_sentences_file rs.1 = total_counts_sentences_file w
   ∧ total_counts_words_file rs.1 = total_counts_words_file w)
  ∧ (rw.2 = inl (FileNotFoundError parsedfile)
     ∧ csv_files rw.1 = csv_files w
     ∧ total_counts_sentences_file rw.1 = total_counts_sentences_file w
     ∧ total_counts_words_file rw.1 = total_counts_words_file w).
Proof.
  intros Hfile rs rw. subst rs rw. run_io. rewrite Hfile.
  cbn. repeat split.
Qed.

Lemma missing_corpus_raises_witness :
  let w := {| text_files := ∅; csv_files := ∅;
              total_counts_sentences_file := None;
              total_counts_words_file := None;
              extra_sentences_file := Some ∅;
              directories := ∅ |} in
  (@parsedfile_to_top_words reference_externals default_settings
     (parsedfile "en" raw) (word_outfile "en") "en" raw w).2
  = inl (FileNotFoundError "bld/tmp/en_raw.txt").
Proof.
  intros w.
  destruct (@missing_corpus_raises reference_externals default_settings
              (parsedfile "en" raw) (word_outfile "en") "en" raw w)
    as (_ & Hraise & _).
  - reflexivity.
  - exact Hraise.
Defined.

(** X15. Without the exclusion table the sentence pipeline raises
    [FileNotFoundError] on a corpus with lines: by then the total of the
    language is written, and no table is. *)
Theorem missing_exclusions_raises `{Externals} (cfg : settings)
    (parsedfile outfile langcode : string) (sdt : source_data_type) (w : world)
    (lines : list pystr) :
  text_files w !! parsedfile = Some lines →
  lines ≠ [] →
  extra_sentences_file w = None →
  let rs := parsedfile_to_top_sentences cfg parsedfile outfile langcode sdt w in
  rs.2 = inl (FileNotFoundError "src/extra_settings/extra_sentences_to_exclude.csv")
  ∧ csv_files rs.1 = csv_files w
  ∧ total_counts_sentences_file rs.1
    = Some (<[langcode := sum_values (filtered_sentences cfg langcode sdt lines)]>
              (default ∅ (total_counts_sentences_file w))).
Proof.
  intros Hfile Hlines Hextra rs. subst rs. run_io. rewrite Hfile.
  destruct lines as [|l lines]; [congruence|].
  cbn [length]. rewrite decide_False by discriminate.
  cbn [text_files]. rewrite Hfile.
  cbn [extra_sentences_file]. rewrite Hextra. repeat split.
Qed.

Lemma missing_exclusions_raises_witness :
  let w := {| text_files := {[ "bld/tmp/en_raw.txt"%string := [py "Hi" ++ [10]] ]};
              csv_files := ∅;
              total_counts_sentences_file := None;
              total_counts_words_file := None;
              extra_sentences_file := None;
              directories := ∅ |} in
  let rs := @parsedfile_to_top_sentences reference_externals default_settings
              (parsedfile "en" raw) (sentence_outfile "en") "en" raw w in
  csv_files rs.1 = ∅
  ∧ (total_counts_sentences_file rs.1 ≫= (λ t, t !! "en"%string)) = Some 1.
Proof.
  intros w rs.
  destruct (@missing_exclusions_raises reference_externals default_settings
              (parsedfile "en" raw) (sentence_outfile "en") "en" raw w
              [py "Hi" ++ [10]]) as (_ & Hcsv & Htotal).
  - reflexivity.
  - discriminate.
  - reflexivity.
  - split; [exact Hcsv|]. fold rs in Htotal. rewrite Htotal.
    vm_compute. reflexivity.
Defined.

(** X16. A run of the sentence pipeline, whether it returns or raises, leaves the
    text files, the exclusion table and the totals of the words as they were;
    of the tables it can only change the one at [outfile], and of the totals
    of the sentences only the entry of its language. The same holds for the
    word pipeline, with the totals exchanged. *)
Theorem pipelines_touch_only_their_files `{Externals} (cfg : settings)
    (parsedfile outfile langcode : string) (sdt : source_data_type) (w : world) :
  let rs := parsedfile_to_top_sentences cfg parsedfile outfile langcode sdt w in
  let rw := parsedfile_to_top_words cfg parsedfile outfile langcode sdt w in
  (text_files rs.1 = text_files w
   ∧ extra_sentences_file rs.1 = extra_sentences_file w
   ∧ total_counts_words_file rs.1 = total_counts_words_file w
   ∧ (∀ f, f ≠ outfile → csv_files rs.1 !! f = csv_files w !! f)
   ∧ (∀ l, l ≠ langcode →
        default ∅ (total_counts_sentences_file rs.1) !! l
        = default ∅ (total_counts_sentences_file w) !! l))
  ∧ (text_files rw.1 = text_files w
     ∧ extra_sentences_file rw.1 = extra_sentences_file w
     ∧ total_counts_sentences_file rw.1 = total_counts_sentences_file w
     ∧ (∀ f, f ≠ outfile → csv_files rw.1 !! f = csv_files w !! f)
     ∧ (∀ l, l ≠ langcode →
          default ∅ (total_counts_words_file rw.1) !! l
          = default ∅ (total_counts_words_file w) !! l)).
Proof.
  intros rs rw. subst rs rw. split.
  - run_io. destruct (text_files w !! parsedfile) as [lines|] eqn:Hfile;
      [|cbn; repeat split].
    destruct lines as [|l0 lines]; [cbn; repeat split|].
    cbn [length]. rewrite decide_False by discriminate.
    cbn [text_files]. rewrite Hfile. cbn [extra_sentences_file].
    destruct (extra_sentences_file w) as [t|]; cbn; repeat split.
    + intros f Hf. now rewrite lookup_insert_ne.
    + intros l Hl. now rewrite lookup_insert_ne.
    + intros l Hl. now rewrite lookup_insert_ne.
  - run_io. destruct (text_files w !! parsedfile) as [lines|] eqn:Hfile;
      [|cbn; repeat split].
    destruct lines as [|l0 lines]; [cbn; repeat split|].
    cbn [length]. rewrite decide_False by discriminate.
    cbn [text_files]. rewrite Hfile. cbn. repeat split.
    + intros f Hf. now rewrite lookup_insert_ne.
    + intros l Hl. now rewrite lookup_insert_ne.
Qed.

(** X17. The whole run of the sentence pipeline, files written and result, is the
    same for any two positive chunk sizes. *)
Theorem sentence_run_chunk_invariant `{Externals}
    (mc : option N) (cutoff : float) (ns nw : N) (n m : N)
    (parsedfile outfile langcode : string) (sdt : source_data_type) (w : world) :
  0 < n → 0 < m →
  parsedfile_to_top_sentences
    {| min_count := mc; lines_per_chunk := n; lowcase_cutoff := cutoff;
       n_top_sentences := ns; n_top_words := nw |}
    parsedfile outfile langcode sdt w
  = parsedfile_to_top_sentences
      {| min_count := mc; lines_per_chunk := m; lowcase_cutoff := cutoff;
         n_top_sentences := ns; n_top_words := nw |}
      parsedfile outfile langcode sdt w.
Proof.
  intros Hn Hm. run_io.
  destruct (text_files w !! parsedfile) as [lines|] eqn:Hfile; [|reflexivity].
  destruct (decide (length lines = 0%nat)); [reflexivity|].
  cbn [text_files]. rewrite Hfile. unfold filtered_sentences.
  cbn [lines_per_chunk].
  rewrite (count_sentences_eq sdt n) by exact Hn.
  rewrite (count_sentences_eq sdt m) by exact Hm.
  reflexivity.
Qed.

Lemma sentence_run_chunk_invariant_witness :
  let w := {| text_files := {[ "c.txt"%string := [py "a"; py "b"; py "a"] ]};
              csv_files := ∅;
              total_counts_sentences_file := None;
              total_counts_words_file := None;
              extra_sentences_file := Some ∅;
              directories := ∅ |} in
  @parsedfile_to_top_sentences reference_externals
    {| min_count := None; lines_per_chunk := 1; lowcase_cutoff := 0.5;
       n_top_sentences := 5; n_top_words := 5 |} "c.txt" "o.csv" "en" text w
  = @parsedfile_to_top_sentences reference_externals
      {| min_count := None; lines_per_chunk := 10000; lowcase_cutoff := 0.5;
         n_top_sentences := 5; n_top_words := 5 |} "c.txt" "o.csv" "en" text w.
Proof.
  intros w.
  apply (@sentence_run_chunk_invariant reference_externals); reflexivity.
Defined.

(** X18. With [lines_per_chunk] at zero the chunk reader gives no chunk: on a
    corpus with lines both pipelines count nothing and write the total 0 for
    the language. *)
Theorem zero_chunk_size_counts_nothing `{Externals} (cfg : settings)
    (parsedfile outfile langcode : string) (sdt : source_data_type) (w : world)
    (lines : list pystr) :
  lines_per_chunk cfg = 0 →
  text_files w !! parsedfile = Some lines →
  lines ≠ [] →
  let rs := parsedfile_to_top_sentences cfg parsedfile outfile langcode sdt w in
  let rw := parsedfile_to_top_words cfg parsedfile outfile langcode sdt w in
  count_sentences sdt (lines_per_chunk cfg) lines = []
  ∧ count_words langcode (lines_per_chunk cfg) lines = []
  ∧ total_counts_sentences_file rs.1
    = Some (<[langcode := 0]> (default ∅ (total_counts_sentences_file w)))
  ∧ total_counts_words_file rw.1
    = Some (<[langcode := 0]> (default ∅ (total_counts_words_file w))).
Proof.
  intros Hzero Hfile Hlines rs rw.
  assert (Hs : count_sentences sdt (lines_per_chunk cfg) lines = []).
  { unfold count_sentences, chunked_reader. rewrite Hzero.
    change (N.to_nat 0) with 0%nat. now rewrite batched_eq, take_0. }
  assert (Hw : count_words langcode (lines_per_chunk cfg) lines = []).
  { unfold count_words, chunked_reader. rewrite Hzero.
    change (N.to_nat 0) with 0%nat. now rewrite batched_eq, take_0. }
  split; [exact Hs|]. split; [exact Hw|]. split.
  - subst rs. run_io. rewrite Hfile.
    destruct lines as [|l lines]; [congruence|].
    cbn [length]. rewrite decide_False by discriminate.
    cbn [text_files]. rewrite Hfile. unfold filtered_sentences. rewrite Hs.
    cbn [extra_sentences_file]. destruct (extra_sentences_file w); reflexivity.
  - subst rw. run_io. rewrite Hfile.
    destruct lines as [|l lines]; [congruence|].
    cbn [length]. rewrite decide_False by discriminate.
    cbn [text_files]. rewrite Hfile. unfold filtered_words. rewrite Hw.
    reflexivity.
Qed.

Lemma zero_chunk_size_counts_nothing_witness :
  let w := {| text_files := {[ "c.txt"%string := [py "a"; py "b"; py "a"] ]};
              csv_files := ∅;
              total_counts_sentences_file := None;
              total_counts_words_file := None;
              extra_sentences_file := Some ∅;
              directories := ∅ |} in
  let cfg := {| min_count := None; lines_per_chunk := 0; lowcase_cutoff := 0.5;
                n_top_sentences := 5; n_top_words := 5 |} in
  count_sentences text (lines_per_chunk cfg) [py "a"; py "b"; py "a"] = [].
Proof.
  intros w cfg.
  destruct (@zero_chunk_size_counts_nothing reference_externals cfg
              "c.txt" "o.csv" "en" text w [py "a"; py "b"; py "a"])
    as (Hs & _).
  - reflexivity.
  - reflexivity.
  - discriminate.
  - exact Hs.
Defined.

(** ** What the noise filter removes, exactly *)

Lemma search_from_bol_later (r : regex) (s : pystr) :
  search_from (Seq Bol r) false s = false.
Proof. induction s as [|c s IH]; [reflexivity|exact IH]. Qed.

Lemma re_search_bol (r : regex) (s : pystr) :
  re_search (Seq Bol r) s = true ↔ match_here r true s ≠ [].
Proof.
  unfold re_search.
  assert (Hm : match_here (Seq Bol r) true s = match_here r true s).
  { cbn [match_here flat_map fst snd]. apply app_nil_r. }
  destruct s as [|c s]; cbn [search_from]; rewrite Hm.
  - destruct (match_here r true []); [split; [discriminate|congruence]|].
    split; [discriminate|reflexivity].
  - destruct (match_here r true (c :: s)).
    + rewrite search_from_bol_later. split; [discriminate|congruence].
    + split; [discriminate|reflexivity].
Qed.

Lemma elem_of_plus_ends (p : N → bool) (s : pystr) (b : bool) (rest : pystr) :
  In (b, rest) (plus_ends p s)
  ↔ b = false ∧ ∃ pre, pre ≠ [] ∧ s = pre ++ rest ∧ forallb p pre = true.
Proof.
  revert b rest. induction s as [|c s IH]; intros b rest; cbn [plus_ends].
  - split; [intros []|]. intros (_ & pre & Hne & Heq & _).
    destruct pre; [congruence|discriminate].
  - destruct (p c) eqn:Hc.
    + cbn [In]. rewrite IH. split.
      * intros [[= <- <-]|(-> & pre & Hne & -> & Hall)].
        -- split; [reflexivity|]. exists [c]. cbn. rewrite Hc. now repeat split.
        -- split; [reflexivity|]. exists (c :: pre). cbn [forallb app].
           rewrite Hc, Hall. now repeat split.
      * intros (-> & pre & Hne & Heq & Hall).
        destruct pre as [|c' pre]; [congruence|].
        injection Heq as <- ->. cbn [forallb] in Hall.
        apply andb_prop in Hall as [_ Hall].
        destruct pre as [|c'' pre]; [now left|].
        right. split; [reflexivity|]. exists (c'' :: pre). now repeat split.
    + split; [intros []|]. intros (_ & pre & Hne & Heq & Hall).
      destruct pre as [|c' pre]; [congruence|].
      injection Heq as <- _. cbn [forallb] in Hall. rewrite Hc in Hall.
      discriminate Hall.
Qed.

Lemma at_eol_iff (rest : pystr) : at_eol rest = true ↔ rest = [] ∨ rest = [10].
Proof.
  destruct rest as [|c [|c' rest]]; cbn [at_eol].
  - split; [now left|reflexivity].
  - rewrite N.eqb_eq. split; [intros ->; now right|]. now intros [|[= ->]].
  - split; [discriminate|]. now intros [|].
Qed.

Lemma in_match_seq (r1 r2 : regex) (b : bool) (s : pystr) (y : bool * pystr) :
  In y (match_here (Seq r1 r2) b s)
  ↔ ∃ pos, In pos (match_here r1 b s) ∧ In y (match_here r2 pos.1 pos.2).
Proof. cbn [match_here]. apply in_flat_map. Qed.

Lemma in_match_eol (b : bool) (rest : pystr) (y : bool * pystr) :
  In y (match_here Eol b rest) ↔ y = (b, rest) ∧ at_eol rest = true.
Proof.
  cbn [match_here]. destruct (at_eol rest).
  - cbn [In]. split; [intros [<-|[]]; now split|intros [-> _]; now left].
  - split; [intros []|intros [_ ?]; discriminate].
Qed.

Lemma list_nonempty_in {A} (l : list A) : l ≠ [] ↔ ∃ y, In y l.
Proof.
  destruct l as [|x l].
  - split; [congruence|intros [y []]].
  - split; [intros _; exists x; now left|discriminate].
Qed.

Lemma match_whole_iff (p : N → bool) (s : pystr) :
  match_here (Seq (CharSetPlus p) Eol) true s ≠ []
  ↔ ∃ pre, pre ≠ [] ∧ forallb p pre = true ∧ (s = pre ∨ s = pre ++ [10]).
Proof.
  rewrite list_nonempty_in. split.
  - intros (y & ([b rest] & Hpos & Heol)%in_match_seq).
    apply in_match_eol in Heol as [_ Hat]. cbn [fst snd] in Hat.
    change (match_here (CharSetPlus p) true s) with (plus_ends p s) in Hpos.
    apply elem_of_plus_ends in Hpos as (_ & pre & Hpre & -> & Hall).
    exists pre. split; [exact Hpre|]. split; [exact Hall|].
    apply at_eol_iff in Hat as [-> | ->]; [left; now rewrite app_nil_r|now right].
  - intros (pre & Hpre & Hall & Hs).
    assert (Hin : ∃ rest, at_eol rest = true ∧ In (false, rest) (plus_ends p s)).
    { destruct Hs as [-> | ->].
      - exists []. split; [reflexivity|]. apply elem_of_plus_ends.
        split; [reflexivity|]. exists pre. now rewrite app_nil_r.
      - exists [10]. split; [reflexivity|]. apply elem_of_plus_ends.
        split; [reflexivity|]. now exists pre. }
    destruct Hin as (rest & Hat & Hin).
    exists (false, rest). apply in_match_seq. exists (false, rest).
    split; [exact Hin|]. now apply in_match_eol.
Qed.

Lemma search_char_eol_iff (q : N → bool) (b : bool) (s : pystr) :
  search_from (Seq (CharSet q) Eol) b s = true
  ↔ ∃ pre c, q c = true ∧ (s = pre ++ [c] ∨ s = pre ++ [c; 10]).
Proof.
  revert b. induction s as [|c s IH]; intros b.
  - cbn. split; [discriminate|]. intros (pre & c & _ & [Heq|Heq]);
      destruct pre; discriminate.
  - cbn [search_from match_here].
    destruct (q c) eqn:Hc; cbn [flat_map fst snd match_here app].
    + destruct (at_eol s) eqn:Hat.
      * split; [intros _|reflexivity]. exists [], c. split; [exact Hc|].
        apply at_eol_iff in Hat as [-> | ->]; [now left|now right].
      * cbn [app]. rewrite IH. split.
        -- intros (pre & c' & Hc' & [-> | ->]); exists (c :: pre), c';
             (split; [exact Hc'|]); [now left|now right].
        -- intros (pre & c' & Hc' & Hs). destruct pre as [|x pre].
           ++ exfalso. destruct Hs as [[= _ ->]|[= _ ->]]; discriminate Hat.
           ++ exists pre, c'. split; [exact Hc'|].
              destruct Hs as [[= _ ->]|[= _ ->]]; [now left|now right].
    + rewrite IH. split.
      * intros (pre & c' & Hc' & [-> | ->]); exists (c :: pre), c';
          (split; [exact Hc'|]); [now left|now right].
      * intros (pre & c' & Hc' & Hs). destruct pre as [|x pre].
        -- exfalso. destruct Hs as [[= -> _]|[= -> _]]; congruence.
        -- exists pre, c'. split; [exact Hc'|].
           destruct Hs as [[= _ ->]|[= _ ->]]; [now left|now right].
Qed.

(** X19. The keys the noise filters remove, and no others. A sentence key goes
    when it is one or more characters of the punctuation-and-numbers set,
    with or without a final newline; when it starts with an opening
    parenthesis, bracket or brace; when it ends with a colon, with or without
    a final newline; or, for a language of the non-Latin list, when it has a
    character of the Latin set. A word key goes in the first and the last
    case only. *)
Theorem noise_patterns_exact `{Externals} (langcode : string) (k : pystr) :
  let whole := ∃ pre, pre ≠ [] ∧ forallb punct_num_set pre = true
                      ∧ (k = pre ∨ k = pre ++ [10]) in
  let opens := ∃ c t, k = c :: t ∧ (c = 40 ∨ c = 91 ∨ c = 123) in
  let colon := ∃ pre, k = pre ++ [58] ∨ k = pre ++ [58; 10] in
  let latin := langcode ∈ non_latin_langs ∧ ∃ c, c ∈ k ∧ latin_set c = true in
  (re_search (sentence_noise_pattern langcode) k = true
   ↔ whole ∨ opens ∨ colon ∨ latin)
  ∧ (re_search (word_noise_pattern langcode) k = true ↔ whole ∨ latin).
Proof.
  intros whole opens colon latin.
  assert (Hwhole : re_search punctuation_and_numbers_regex k = true ↔ whole).
  { unfold punctuation_and_numbers_regex. rewrite re_search_bol.
    apply match_whole_iff. }
  assert (Hopens : re_search parenthesis_start_regex k = true ↔ opens).
  { unfold parenthesis_start_regex. rewrite re_search_bol. cbn [match_here].
    subst opens. destruct k as [|c t].
    - split; [congruence|]. intros (c & t & Heq & _). discriminate Heq.
    - destruct ((c =? 40) || (c =? 91) || (c =? 123)) eqn:Hc.
      + split; [intros _|discriminate]. exists c, t. split; [reflexivity|].
        apply orb_prop in Hc as [Hc|Hc]; [apply orb_prop in Hc as [Hc|Hc]|];
          apply N.eqb_eq in Hc; tauto.
      + split; [congruence|]. intros (c' & t' & [= <- <-] & Hcs). exfalso.
        destruct Hcs as [-> | [-> | ->]]; discriminate Hc. }
  assert (Hcolon : re_search colon_end_regex k = true ↔ colon).
  { unfold colon_end_regex, re_search. rewrite search_char_eol_iff.
    subst colon. split.
    - intros (pre & c & ->%N.eqb_eq & Hs). now exists pre.
    - intros (pre & Hs). exists pre, 58. now split. }
  assert (Hlatin : bool_decide (langcode ∈ non_latin_langs) && existsb latin_set k
                   = true ↔ latin).
  { subst latin. rewrite andb_true_iff, bool_decide_eq_true, existsb_exists.
    split.
    - intros [Hl (c & Hc & Hs)]. split; [exact Hl|]. exists c.
      split; [now apply list_elem_of_In|exact Hs].
    - intros [Hl (c & Hc & Hs)]. split; [exact Hl|]. exists c.
      split; [now apply list_elem_of_In|exact Hs]. }
  split.
  - rewrite sentence_noise_pattern_search, !orb_true_iff.
    rewrite Hwhole, Hopens, Hcolon, Hlatin. tauto.
  - rewrite word_noise_pattern_search, orb_true_iff.
    rewrite Hwhole, Hlatin. tauto.
Qed.

(** ** Case collapse *)

Section CaseCollapse.
Context `{Externals} `{!SortValuesSpec}.

(** After sorting, grouping and taking the first of each group, a row comes
    from the head of its group in the sorted table. *)
Lemma first_sum_row_head (key : pystr → pystr) (df : dataframe) (w : pystr)
    (c : N) :
  (w, c) ∈ sort_values (map agg_first_sum (groupby key (sort_values df))) →
  ∃ n tl,
    filter (λ r : row, key r.1 = key w) (sort_values df) = (w, n) :: tl
    ∧ Forall (λ r : row, r.2 ≤ n) tl
    ∧ c = sum_values ((w, n) :: tl).
Proof.
  intros Hin. rewrite sort_values_perm in Hin.
  apply list_elem_of_fmap in Hin as ([g members'] & Hx & Hg).
  apply elem_of_groupby in Hg as (Hm' & r1 & Hr1 & Hk1).
  destruct members' as [|[w0 n] tl].
  { exfalso. eapply not_elem_of_nil. rewrite Hm'.
    apply list_elem_of_filter. split; [exact Hk1|exact Hr1]. }
  unfold agg_first_sum in Hx. cbn [agg_first fst snd] in Hx.
  injection Hx as <- ->.
  assert (Hkw : key w = g).
  { assert (Hin : (w, n) ∈ filter (λ r : row, key r.1 = g) (sort_values df))
      by (rewrite <- Hm'; left).
    now apply list_elem_of_filter in Hin as [? _]. }
  exists n, tl. rewrite Hkw, <- Hm'. split; [reflexivity|]. split; [|reflexivity].
  assert (Hss : StronglySorted count_ge ((w, n) :: tl)).
  { rewrite Hm'. apply StronglySorted_filter.
    apply Sorted_StronglySorted; [apply count_ge_trans|apply sort_values_sorted]. }
  now apply StronglySorted_inv in Hss as [_ Htl].
Qed.

End CaseCollapse.

(** X20. With the cutoff 0.5 every row of the case collapse is named after a
    spelling that no spelling of the same word, up to case, outnumbers, and
    carries the sum of the counts of all of them. *)
Theorem collapse_case_majority `{Externals} `{!SortValuesSpec}
    (df : dataframe) (w : pystr) (c : N) :
  (w, c) ∈ collapse_case df 0.5 →
  let members := filter (λ r : row, str_lower r.1 = str_lower w) df in
  ∃ n, (w, n) ∈ members
       ∧ Forall (λ r : row, r.2 ≤ n) members
       ∧ c = sum_values members.
Proof.
  unfold collapse_case. change (PrimFloat.eqb 0.5 0.5) with true. cbv iota.
  intros Hin.
  set (members := filter (λ r : row, str_lower r.1 = str_lower w) df).
  apply (first_sum_row_head str_lower) in Hin as (n & tl & Hhead & Htl & ->).
  assert (Hperm : (w, n) :: tl ≡ₚ members).
  { rewrite <- Hhead. subst members. now rewrite sort_values_perm. }
  exists n. split; [|split].
  - rewrite <- Hperm. left.
  - rewrite <- Hperm. constructor; [cbn; lia|exact Htl].
  - now apply sum_values_perm.
Qed.

Lemma collapse_case_majority_witness :
  ∃ n, (py "Bob", n) ∈ filter (λ r : row, ascii_lower r.1 = ascii_lower (py "Bob"))
                         [(py "bob", 2); (py "Bob", 5); (py "it", 4)]
       ∧ 7 = sum_values
               (filter (λ r : row, ascii_lower r.1 = ascii_lower (py "Bob"))
                  [(py "bob", 2); (py "Bob", 5); (py "it", 4)]).
Proof.
  destruct (@collapse_case_majority reference_externals reference_sort_values
              [(py "bob", 2); (py "Bob", 5); (py "it", 4)] (py "Bob") 7)
    as (n & Hin & _ & Hsum).
  - refine (bool_decide_unpack _ _). vm_compute. exact I.
  - exists n. split; [exact Hin|exact Hsum].
Defined.

(** X21. With another cutoff: a lower-case spelling whose share of the counts of
    its word, up to case, is above the cutoff names the row of the word, and
    the row carries the sum of those counts. *)
Theorem collapse_case_prefers_lowercase `{Externals} `{!SortValuesSpec}
    (df : dataframe) (cutoff : float) (g : pystr) (n : N) :
  PrimFloat.eqb cutoff 0.5 = false →
  (g, n) ∈ df →
  str_lower g = g →
  let total := sum_values (filter (λ r : row, str_lower r.1 = g) df) in
  PrimFloat.ltb cutoff (PrimFloat.div (float_of_N n) (float_of_N total)) = true →
  (g, total) ∈ collapse_case df cutoff.
Proof.
  intros Hcut Hin Hlow total Hshare. unfold collapse_case. rewrite Hcut.
  rewrite sort_values_perm.
  pose proof (groupby_elem_of str_lower df (g, n) Hin) as Hgroup.
  cbn [fst] in Hgroup. rewrite Hlow in Hgroup.
  apply list_elem_of_In, in_map_iff. eexists. split; [|apply list_elem_of_In, Hgroup].
  unfold wordcase_by_cutoff. fold total.
  destruct (List.find _ _) as [r|] eqn:Hfind; [reflexivity|].
  exfalso. eapply find_none in Hfind.
  2: { apply list_elem_of_In, list_elem_of_filter. split; [|exact Hin]. exact Hlow. }
  cbn [fst snd] in Hfind. rewrite bool_decide_eq_true_2 in Hfind by reflexivity.
  rewrite Hshare in Hfind. discriminate Hfind.
Qed.

Lemma collapse_case_prefers_lowercase_witness :
  (py "the", 10) ∈ @collapse_case reference_externals
                     [(py "The", 6); (py "the", 4); (py "Bob", 3)] cutoff_0_2.
Proof.
  apply (@collapse_case_prefers_lowercase reference_externals
           reference_sort_values
           [(py "The", 6); (py "the", 4); (py "Bob", 3)] cutoff_0_2
           (py "the") 4).
  - reflexivity.
  - refine (bool_decide_unpack _ _). vm_compute. exact I.
  - reflexivity.
  - reflexivity.
Defined.

(** ** Super-lines are made of two strings or more *)

Lemma join_loop_pairs (n : Z) (strings done : list pystr) (st : join_state) :
  (∃ groups : list (list pystr),
      Forall (λ g, (2 ≤ length g)%nat) groups
      ∧ yielded st = map (str_join space) groups
      ∧ concat groups ++ current_words st = done) →
  ∃ groups : list (list pystr),
    Forall (λ g, (2 ≤ length g)%nat) groups
    ∧ yielded (foldl (join_step n) st strings) = map (str_join space) groups
    ∧ concat groups ++ current_words (foldl (join_step n) st strings)
      = done ++ strings.
Proof.
  revert done st. induction strings as [|word strings IH]; intros done st Hinv.
  - now rewrite app_nil_r.
  - cbn [foldl].
    replace (done ++ word :: strings) with ((done ++ [word]) ++ strings)
      by now rewrite <- app_assoc.
    apply IH. destruct Hinv as (groups & Hlen & Hy & Hc).
    unfold join_step. destruct (current_words st) as [|w ws] eqn:Hcur.
    + exists groups. cbn [current_words yielded].
      repeat split; [exact Hlen|exact Hy|]. now rewrite <- Hc, app_nil_r.
    + destruct (n <=? current_length st + 1 + str_len word)%Z.
      * exists (groups ++ [(w :: ws) ++ [word]]). cbn [current_words yielded].
        repeat split.
        -- apply Forall_app. split; [exact Hlen|]. constructor; [|constructor].
           rewrite length_app. cbn [length]. lia.
        -- rewrite Hy, map_app. reflexivity.
        -- rewrite concat_app. cbn [concat]. rewrite !app_nil_r, <- Hc.
           now rewrite <- !app_assoc.
      * exists groups. cbn [current_words yielded].
        repeat split; [exact Hlen|exact Hy|]. now rewrite <- Hc, <- !app_assoc.
Qed.

(** X22. Every super-line of [join_to_min_length] but the last joins two strings
    or more: a string is never yielded alone before the end, however long it
    is. So there are at most half as many super-lines as strings, rounded up,
    none for no string and one at least otherwise. *)
Theorem join_to_min_length_pairs (strings : list pystr) (n : Z) :
  let out := join_to_min_length strings n in
  (∃ groups last : list (list pystr),
      out = map (str_join space) (groups ++ last)
      ∧ concat (groups ++ last) = strings
      ∧ Forall (λ g, (2 ≤ length g)%nat) groups
      ∧ (last = [] ∨ ∃ g, g ≠ [] ∧ last = [g]))
  ∧ (2 * length out ≤ length strings + 1)%nat
  ∧ (out = [] ↔ strings = []).
Proof.
  intros out.
  destruct (join_loop_pairs n strings [] (JoinState [] 0 []))
    as (groups & Hlen & Hy & Hc).
  { exists []. repeat split. constructor. }
  cbn [app] in Hc.
  assert (Hgroups : ∃ last : list (list pystr),
             out = map (str_join space) (groups ++ last)
             ∧ concat (groups ++ last) = strings
             ∧ (last = [] ∨ ∃ g, g ≠ [] ∧ last = [g])).
  { subst out. unfold join_to_min_length.
    destruct (current_words _) as [|w ws] eqn:Hcur.
    - exists []. rewrite !app_nil_r in *. repeat split; [exact Hy|exact Hc|now left].
    - exists [w :: ws]. repeat split.
      + rewrite Hy, map_app. reflexivity.
      + rewrite concat_app. cbn [concat]. now rewrite app_nil_r.
      + right. exists (w :: ws). split; [discriminate|reflexivity]. }
  destruct Hgroups as (last & Hout & Hcat & Hlast).
  assert (Hsize : (2 * length groups ≤ length (concat groups))%nat).
  { clear -Hlen. induction Hlen as [|g groups Hg _ IH]; [cbn; lia|].
    cbn [concat length]. rewrite length_app. lia. }
  split; [exists groups, last; now repeat split|]. split.
  - rewrite Hout, length_map, length_app, <- Hcat, concat_app, length_app.
    destruct Hlast as [->|(g & Hg & ->)]; cbn [concat length]; [lia|].
    rewrite app_nil_r. destruct g; [congruence|cbn [length]; lia].
  - rewrite Hout, <- Hcat. split.
    + intros Hnil. apply map_eq_nil in Hnil. now rewrite Hnil.
    + intros Hnil. apply (f_equal (@length pystr)) in Hnil.
      rewrite concat_app, length_app in Hnil. cbn [length] in Hnil.
      destruct groups as [|g groups].
      * destruct Hlast as [->|(g & Hg & ->)]; [reflexivity|].
        cbn in Hnil. rewrite app_nil_r in Hnil.
        destruct g; [congruence|discriminate].
      * exfalso. inversion Hlen; subst. cbn [concat] in Hnil.
        rewrite length_app in Hnil. lia.
Qed.

(** ** Runs over several languages *)

Lemma lookup_written {V} (k k' : string) (o : option V) (m : gmap string V) :
  written k o m !! k'
  = match o with
    | Some v => if decide (k = k') then Some v else m !! k'
    | None => m !! k'
    end.
Proof.
  destruct o as [v|]; [|reflexivity]. cbn [written].
  case_decide as Hk.
  - subst k'. apply lookup_insert_eq.
  - now apply lookup_insert_ne.
Qed.

Section RunFacts.
Context `{Externals} (cfg : settings).

(** What a run of the sentence pipeline does is fixed by the files it reads:
    the same result, the same total and the same table, wherever they are
    written. *)
Lemma sentences_effect (parsedfile outfile langcode : string)
    (sdt : source_data_type) (w : world) :
  ∃ (tot : option N) (tab : option dataframe) (res : error + unit),
    ∀ w', same_inputs w w' →
      let r := parsedfile_to_top_sentences cfg parsedfile outfile langcode sdt w' in
      r.2 = res
      ∧ same_inputs w r.1
      ∧ csv_files r.1 = written outfile tab (csv_files w')
      ∧ default ∅ (total_counts_sentences_file r.1)
        = written langcode tot (default ∅ (total_counts_sentences_file w'))
      ∧ default ∅ (total_counts_words_file r.1)
        = default ∅ (total_counts_words_file w').
Proof.
  destruct (text_files w !! parsedfile) as [[|l0 lines]|] eqn:Hfile.
  - exists None, None, (inr tt). intros w' [Htf Hex]. unfold same_inputs.
    run_io. rewrite Htf, Hfile. cbn. now repeat split.
  - destruct (extra_sentences_file w) as [t|] eqn:Hextra.
    + exists (Some (sum_values (filtered_sentences cfg langcode sdt (l0 :: lines)))),
        (Some (rank_sentences cfg sdt (t !! langcode)
                 (filtered_sentences cfg langcode sdt (l0 :: lines)))),
        (inr tt).
      intros w' [Htf Hex]. unfold same_inputs. run_io. rewrite Htf, Hfile.
      cbn [length]. rewrite decide_False by discriminate.
      cbn [text_files]. rewrite Hfile. cbn [extra_sentences_file].
      rewrite Hex, Hextra. cbn. now repeat split.
    + exists (Some (sum_values (filtered_sentences cfg langcode sdt (l0 :: lines)))),
        None,
        (inl (FileNotFoundError "src/extra_settings/extra_sentences_to_exclude.csv")).
      intros w' [Htf Hex]. unfold same_inputs. run_io. rewrite Htf, Hfile.
      cbn [length]. rewrite decide_False by discriminate.
      cbn [text_files]. rewrite Hfile. cbn [extra_sentences_file].
      rewrite Hex, Hextra. cbn. now repeat split.
  - exists None, None, (inl (FileNotFoundError parsedfile)).
    intros w' [Htf Hex]. unfold same_inputs.
    run_io. rewrite Htf, Hfile. cbn. now repeat split.
Qed.

Lemma words_effect (parsedfile outfile langcode : string)
    (sdt : source_data_type) (w : world) :
  ∃ (tot : option N) (tab : option dataframe) (res : error + unit),
    ∀ w', same_inputs w w' →
      let r := parsedfile_to_top_words cfg parsedfile outfile langcode sdt w' in
      r.2 = res
      ∧ same_inputs w r.1
      ∧ csv_files r.1 = written outfile tab (csv_files w')
      ∧ default ∅ (total_counts_sentences_file r.1)
        = default ∅ (total_counts_sentences_file w')
      ∧ default ∅ (total_counts_words_file r.1)
        = written langcode tot (default ∅ (total_counts_words_file w')).
Proof.
  destruct (text_files w !! parsedfile) as [[|l0 lines]|] eqn:Hfile.
  - exists None, None, (inr tt). intros w' [Htf Hex]. unfold same_inputs.
    run_io. rewrite Htf, Hfile. cbn. now repeat split.
  - exists (Some (sum_values (filtered_words cfg langcode (l0 :: lines)))),
      (Some (rank_words cfg (filtered_words cfg langcode (l0 :: lines)))),
      (inr tt).
    intros w' [Htf Hex]. unfold same_inputs. run_io. rewrite Htf, Hfile.
    cbn [length]. rewrite decide_False by discriminate.
    cbn [text_files]. rewrite Hfile. cbn. now repeat split.
  - exists None, None, (inl (FileNotFoundError parsedfile)).
    intros w' [Htf Hex]. unfold same_inputs.
    run_io. rewrite Htf, Hfile. cbn. now repeat split.
Qed.

End RunFacts.

Ltac outfile_absurd :=
  match goal with
  | Hn : ?x ≠ ?x |- _ => now apply Hn
  | Heq : sentence_outfile _ = word_outfile _ |- _ =>
      now apply sentence_word_outfile_ne in Heq
  | Heq : word_outfile _ = sentence_outfile _ |- _ =>
      symmetry in Heq; now apply sentence_word_outfile_ne in Heq
  | Heq : sentence_outfile _ = sentence_outfile _ |- _ =>
      apply sentence_outfile_inj in Heq; congruence
  | Heq : word_outfile _ = word_outfile _ |- _ =>
      apply word_outfile_inj in Heq; congruence
  | _ => congruence
  end.

Section RunsOverLanguages.
Context `{Externals} (cfg : settings) (flags : run_flags).

Lemma run_pipelines_effect (langcode : string) (sdt : source_data_type)
    (w : world) :
  ∃ (ts tw : option N) (tabs tabw : option dataframe) (res : error + unit),
    ∀ w', same_inputs w w' →
      let r := run_pipelines cfg flags langcode sdt w' in
      r.2 = res
      ∧ same_inputs w r.1
      ∧ csv_files r.1
        = written (word_outfile langcode) tabw
            (written (sentence_outfile langcode) tabs (csv_files w'))
      ∧ default ∅ (total_counts_sentences_file r.1)
        = written langcode ts (default ∅ (total_counts_sentences_file w'))
      ∧ default ∅ (total_counts_words_file r.1)
        = written langcode tw (default ∅ (total_counts_words_file w')).
Proof.
  unfold run_pipelines.
  set (sentences := if get_sentences flags then _ else _).
  set (words := if get_words flags then _ else _).
  assert (Hs : ∃ tot tab res, ∀ w', same_inputs w w' →
     (sentences w').2 = res
     ∧ same_inputs w (sentences w').1
     ∧ csv_files (sentences w').1
       = written (sentence_outfile langcode) tab (csv_files w')
     ∧ default ∅ (total_counts_sentences_file (sentences w').1)
       = written langcode tot (default ∅ (total_counts_sentences_file w'))
     ∧ default ∅ (total_counts_words_file (sentences w').1)
       = default ∅ (total_counts_words_file w')).
  { subst sentences. destruct (get_sentences flags); [apply sentences_effect|].
    exists None, None, (inr tt). intros w' [Htf Hex]. unfold same_inputs.
      cbn. now repeat split. }
  assert (Hw : ∃ tot tab res, ∀ w', same_inputs w w' →
     (words w').2 = res
     ∧ same_inputs w (words w').1
     ∧ csv_files (words w').1
       = written (word_outfile langcode) tab (csv_files w')
     ∧ default ∅ (total_counts_sentences_file (words w').1)
       = default ∅ (total_counts_sentences_file w')
     ∧ default ∅ (total_counts_words_file (words w').1)
       = written langcode tot (default ∅ (total_counts_words_file w'))).
  { subst words. destruct (get_words flags).
    - destruct (negb _); apply words_effect.
    - exists None, None, (inr tt). intros w' [Htf Hex]. unfold same_inputs.
      cbn. now repeat split. }
  clearbody sentences words.
  destruct Hs as (ts & tabs & rs & Hs), Hw as (tw & tabw & rw & Hw).
  destruct rs as [e|[]].
  - exists ts, None, tabs, None, (inl e). intros w' Hin.
    destruct (Hs w' Hin) as (Hres & Hin1 & Hcsv & Htcs & Htcw).
    unfold mbind, io_bind. destruct (sentences w') as [w1 r1].
    cbn [fst snd] in *. subst r1. cbn [fst snd written].
    split_and!; done.
  - exists ts, tw, tabs, tabw, rw. intros w' Hin.
    destruct (Hs w' Hin) as (Hres & Hin1 & Hcsv & Htcs & Htcw).
    unfold mbind, io_bind. destruct (sentences w') as [w1 r1].
    cbn [fst snd] in *. subst r1.
    destruct (Hw w1 Hin1) as (Hres2 & Hin2 & Hcsv2 & Htcs2 & Htcw2).
    rewrite Hcsv2, Htcs2, Htcw2, Hcsv, Htcs, Htcw. split_and!; done.
Qed.

(** The outputs of a language after its pipelines ran, from the outputs
    before. *)
Lemma run_pipelines_outputs (langcode : string) (sdt : source_data_type)
    (w : world) :
  ∃ (res : error + unit)
    (f : option dataframe * option dataframe * option N * option N
         → option dataframe * option dataframe * option N * option N),
    (∀ o, f (f o) = f o)
    ∧ ∀ w', same_inputs w w' →
        let r := run_pipelines cfg flags langcode sdt w' in
        r.2 = res
        ∧ same_inputs w r.1
        ∧ language_outputs langcode r.1 = f (language_outputs langcode w')
        ∧ ∀ l, l ≠ langcode →
            language_outputs l r.1 = language_outputs l w'.
Proof.
  destruct (run_pipelines_effect langcode sdt w)
    as (ts & tw & tabs & tabw & res & Heff).
  exists res,
    (λ o, (from_option Some o.1.1.1 tabs, from_option Some o.1.1.2 tabw,
           from_option Some o.1.2 ts, from_option Some o.2 tw)).
  split.
  { intros [[[o1 o2] o3] o4]. cbn [fst snd].
    now destruct tabs, tabw, ts, tw. }
  intros w' Hin. destruct (Heff w' Hin) as (Hres & Hin1 & Hcsv & Htcs & Htcw).
  cbv zeta. split; [exact Hres|]. split; [exact Hin1|].
  unfold language_outputs. rewrite Hcsv, Htcs, Htcw. cbn [fst snd].
  split.
  - rewrite !lookup_written.
    destruct tabs, tabw, ts, tw; cbn [from_option];
      repeat case_decide; try reflexivity; exfalso; outfile_absurd.
  - intros l Hl. rewrite !lookup_written.
    destruct tabs, tabw, ts, tw; cbn [from_option];
      repeat case_decide; try reflexivity; exfalso; outfile_absurd.
Qed.

Lemma run_languages_outputs (langcodes : list string) (sdt : source_data_type)
    (w : world) (l : string) :
  ∀ w', same_inputs w w' →
    let r := run_languages cfg flags langcodes sdt w' in
    let alone := (run_pipelines cfg flags l sdt w).1 in
    same_inputs w r.1
    ∧ (l ∉ langcodes → language_outputs l r.1 = language_outputs l w')
    ∧ (language_outputs l w' = language_outputs l alone →
       language_outputs l r.1 = language_outputs l alone)
    ∧ (language_outputs l w' = language_outputs l w →
       l ∈ langcodes → r.2 = inr tt →
       language_outputs l r.1 = language_outputs l alone).
Proof.
  destruct (run_pipelines_outputs l sdt w) as (resl & f & Hidem & Hl).
  assert (Hww : same_inputs w w) by (split; reflexivity).
  destruct (Hl w Hww) as (_ & _ & Halone & _).
  induction langcodes as [|x langcodes IH]; intros w' Hin; cbv zeta.
  - cbn. repeat split; try apply Hin; try done.
    intros _ Hel. now apply elem_of_nil in Hel.
  - cbn [run_languages]. unfold mbind, io_bind.
    destruct (run_pipelines_outputs x sdt w) as (resx & fx & _ & Hx).
    destruct (Hx w' Hin) as (Hresx & Hin1 & _ & Hother).
    destruct (Hl w' Hin) as (_ & _ & Hsame & _).
    destruct (run_pipelines cfg flags x sdt w') as [w1 r1] eqn:Hrun.
    cbn [fst snd] in *.
    assert (Hstep : language_outputs l w1
                    = if decide (x = l) then f (language_outputs l w')
                      else language_outputs l w').
    { case_decide as Hxl.
      - subst x. rewrite Hrun in Hsame. exact Hsame.
      - apply Hother. congruence. }
    destruct (IH w1 Hin1) as (IHin & IHnot & IHdone & IHfirst).
    destruct r1 as [e|[]]; cbn [fst snd].
    + split; [exact Hin1|]. split; [|split].
      * intros Hnot. rewrite Hstep, decide_False; [reflexivity|].
        intros ->. apply Hnot. left.
      * intros Hdone. rewrite Hstep. case_decide; [|exact Hdone].
        now rewrite Hdone, Halone, Hidem.
      * intros _ _ Hres. discriminate Hres.
    + split; [exact IHin|]. split; [|split].
      * intros Hnot. rewrite IHnot.
        -- rewrite Hstep, decide_False; [reflexivity|].
           intros ->. apply Hnot. left.
        -- intros Hel. apply Hnot. now right.
      * intros Hdone. apply IHdone. rewrite Hstep.
        case_decide; [|exact Hdone]. now rewrite Hdone, Halone, Hidem.
      * intros Hfirst Hel Hres. destruct (decide (x = l)) as [->|Hxl].
        -- apply IHdone. rewrite Hstep. rewrite ?decide_True by reflexivity.
           now rewrite Hfirst, Halone.
        -- apply IHfirst; [|now apply elem_of_cons in Hel as [->|]|exact Hres].
           rewrite Hstep. rewrite ?decide_False by exact Hxl. exact Hfirst.
Qed.

End RunsOverLanguages.

(** X23. A run over several languages, with the download, parsing and deletion
    switches off, never changes the files the pipelines read; it leaves the
    tables and totals of a language that is not in the list as they were; and
    when it returns, it leaves for every language of the list the tables and
    totals that a run of that language alone leaves. *)
Theorem languages_independent `{Externals} (cfg : settings) (flags : run_flags)
    (langcodes : list string) (sdt : source_data_type) (w : world) (l : string) :
  let r := run_languages cfg flags langcodes sdt w in
  same_inputs w r.1
  ∧ (l ∉ langcodes → language_outputs l r.1 = language_outputs l w)
  ∧ (l ∈ langcodes → r.2 = inr tt →
     language_outputs l r.1
     = language_outputs l (run_pipelines cfg flags l sdt w).1).
Proof.
  intros r.
  destruct (run_languages_outputs cfg flags langcodes sdt w l w)
    as (Hin & Hnot & _ & Hfirst); [split; reflexivity|].
  split; [exact Hin|]. split; [exact Hnot|]. now apply Hfirst.
Qed.

Lemma languages_independent_witness :
  let w := {| text_files :=
                {[ "src/data/en/en_tokenized.txt"%string := [py "hi you" ++ [10]];
                   "src/data/nl/nl_tokenized.txt"%string := [py "hoi" ++ [10]] ]};
              csv_files := ∅;
              total_counts_sentences_file := None;
              total_counts_words_file := None;
              extra_sentences_file := Some ∅;
              directories := ∅ |} in
  let flags := {| get_sentences := true; get_words := true;
                  get_words_using_tokenized := false |} in
  language_outputs "en"
    (@run_languages reference_externals default_settings flags
       ["nl"; "en"]%string tokenized w).1
  = language_outputs "en"
      (@run_pipelines reference_externals default_settings flags
         "en" tokenized w).1.
Proof.
  intros w flags.
  destruct (@languages_independent reference_externals default_settings flags
              ["nl"; "en"]%string tokenized w "en") as (_ & _ & Hrun).
  apply Hrun.
  - right. left.
  - vm_compute. reflexivity.
Defined.
